(** * Holoborodko's smooth noise-robust differentiator

    A shallow embedding of [holoborodko_diff.py] ([coeffs] and [holo_diff])
    and the proofs of its specification.

    Modelling choices.
    - numpy float arrays are lists of rationals [Q]: arithmetic is exact, so
      the statements below are the real-arithmetic readings of the
      specification.  Equalities that come from arithmetic are stated with
      [Qeq] ([==]); equalities that come from copying values are Leibniz.
      Division by zero (which numpy turns into inf/nan) is outside the model:
      the statements that depend on a quotient carry the hypothesis that the
      divisor is not zero.
    - Python exceptions are the constructors of [exn]; a computation is a
      value of [result].
    - Python integers are [Z]; slices follow Python's rule for negative and
      out-of-range bounds; one-dimensional numpy broadcasting is written out.
    - the recursion of [holo_diff] is on a fuel argument that counts stack
      frames; [holo_diff] supplies enough of it. *)

From Stdlib Require Import ZArith QArith Qpower Qfield List Lia Lqa Bool Arith.
Import ListNotations.

Open Scope Z_scope.

(** ** Exceptions and the error monad *)

Inductive exn : Type :=
| AssertionError (len_x len_y : nat)   (* the message reports both lengths *)
| ValueError                           (* numpy shape errors *)
| IndexError                           (* index out of bounds *)
| OutOfFuel.                           (* artefact of the model, see [holo_diff_total] *)

Inductive result (A : Type) : Type :=
| Ok (a : A)
| Raise (e : exn).
Arguments Ok {A} a.
Arguments Raise {A} e.

Definition bind {A B} (r : result A) (f : A -> result B) : result B :=
  match r with
  | Ok a => f a
  | Raise e => Raise e
  end.

Notation "x <- c1 ;; c2" := (bind c1 (fun x => c2))
  (at level 61, c1 at next level, right associativity).

(** ** Python sequences: indices, slices, numpy element-wise operations *)

Definition len {A} (l : list A) : Z := Z.of_nat (length l).

(** A slice bound [i] of a sequence of length [n], as Python normalises it. *)
Definition clamp (n i : Z) : Z :=
  if i <? 0 then Z.max 0 (i + n) else Z.min i n.

Definition lower (n : Z) (lo : option Z) : Z :=
  match lo with None => 0 | Some i => clamp n i end.

Definition upper (n : Z) (hi : option Z) : Z :=
  match hi with None => n | Some i => clamp n i end.

(** [l[lo:hi]] *)
Definition slice {A} (l : list A) (lo hi : option Z) : list A :=
  let a := lower (len l) lo in
  let b := upper (len l) hi in
  firstn (Z.to_nat (b - a)) (skipn (Z.to_nat a) l).

(** [l[i]] *)
Definition index {A} (l : list A) (i : Z) : result A :=
  let j := if i <? 0 then i + len l else i in
  if (0 <=? j) && (j <? len l) then
    match nth_error l (Z.to_nat j) with
    | Some a => Ok a
    | None => Raise IndexError
    end
  else Raise IndexError.

Fixpoint map2 {A B C} (f : A -> B -> C) (u : list A) (v : list B) : list C :=
  match u, v with
  | a :: u', b :: v' => f a b :: map2 f u' v'
  | _, _ => []
  end.

(** [u op v] on one-dimensional arrays. *)
Definition broadcast2 (f : Q -> Q -> Q) (u v : list Q) : result (list Q) :=
  if (length u =? length v)%nat then Ok (map2 f u v)
  else match u, v with
       | [a], _ => Ok (map (f a) v)
       | _, [b] => Ok (map (fun a => f a b) u)
       | _, _ => Raise ValueError
       end.

(** The value [v] as it is stored into a target of [w] cells. *)
Definition broadcast_to (w : nat) (v : list Q) : result (list Q) :=
  if (length v =? w)%nat then Ok v
  else match v with
       | [c] => Ok (repeat c w)
       | _ => Raise ValueError
       end.

(** [l[lo:hi] = v] *)
Definition set_slice (l : list Q) (lo hi : option Z) (v : list Q)
  : result (list Q) :=
  let a := lower (len l) lo in
  let b := upper (len l) hi in
  let w := Z.to_nat (b - a) in
  v' <- broadcast_to w v ;;
  Ok (firstn (Z.to_nat a) l ++ v' ++ skipn (Z.to_nat a + w) l).

(** [l[i] = q] *)
Definition set_index (l : list Q) (i : Z) (q : Q) : result (list Q) :=
  let j := if i <? 0 then i + len l else i in
  if (0 <=? j) && (j <? len l) then
    Ok (firstn (Z.to_nat j) l ++ q :: skipn (S (Z.to_nat j)) l)
  else Raise IndexError.

(** [np.arange(a, b)] *)
Definition arange (a b : Z) : list Z :=
  map (fun i => a + Z.of_nat i) (seq 0 (Z.to_nat (b - a))).

(** [np.zeros((rows, cols))] *)
Definition zeros2 (rows cols : Z) : result (list (list Q)) :=
  if (rows <? 0) || (cols <? 0) then Raise ValueError
  else Ok (repeat (repeat 0%Q (Z.to_nat cols)) (Z.to_nat rows)).

(** [fk[i,:] = r] for [fk] of shape (rows, cols) *)
Definition set_row (cols : nat) (fk : list (list Q)) (i : nat) (r : list Q)
  : result (list (list Q)) :=
  if (i <? length fk)%nat then
    r' <- broadcast_to cols r ;;
    Ok (firstn i fk ++ r' :: skipn (S i) fk)
  else Raise IndexError.

(** [fk.sum(axis=0)] for [fk] of shape (rows, cols) *)
Definition sum_axis0 (cols : nat) (fk : list (list Q)) : list Q :=
  fold_left (map2 Qplus) fk (repeat 0%Q cols).

(** [enumerate(c)] *)
Definition enumerate {A} (c : list A) : list (nat * A) :=
  combine (seq 0 (length c)) c.

(** ** [scipy.special.comb] *)

(** Pascal's triangle. *)
Fixpoint binom (n k : nat) : nat :=
  match n, k with
  | _, O => 1
  | O, S _ => 0
  | S n', S k' => binom n' k' + binom n' k
  end.

(** [comb(N, k)]: scipy sets the value to 0 unless [k <= N], [N >= 0] and
    [k >= 0]. *)
Definition comb (N k : Z) : Q :=
  if (k <=? N) && (0 <=? N) && (0 <=? k)
  then inject_Z (Z.of_nat (binom (Z.to_nat N) (Z.to_nat k)))
  else 0%Q.

(** ** [coeffs] *)

Definition coeffs (M : Z) : list Q :=
  let m := (2 * M - 2) / 2 in
  let k := arange 1 (M + 1) in
  map (fun k => (1 / Qpower 2 (2 * m + 1)
                 * (comb (2 * m) (m - k + 1) - comb (2 * m) (m - k - 1)))%Q) k.

(** ** [holo_diff] *)

(** The body of the [for i,cc in enumerate(c)] loop, threaded through the
    remaining iterations; [fk] is the array being filled. *)
Fixpoint stencil_loop (x y : list Q) (M : Z) (cols : nat)
    (its : list (nat * Q)) (fk : list (list Q)) : result (list (list Q)) :=
  match its with
  | [] => Ok fk
  | (i, cc) :: rest =>
      let k := Z.of_nat i + 1 in
      let ill := M - k in
      let ilr := M + k in
      let iul := - M - k in
      let iur := if (- M + k =? 0) then None else Some (- M + k) in
      dy <- broadcast2 Qminus (slice y (Some ilr) iur) (slice y (Some ill) (Some iul)) ;;
      dx <- broadcast2 Qminus (slice x (Some ilr) iur) (slice x (Some ill) (Some iul)) ;;
      r <- broadcast2 Qdiv (map (Qmult (2 * inject_Z k * cc)) dy) dx ;;
      fk' <- set_row cols fk i r ;;
      stencil_loop x y M cols rest fk'
  end.

Fixpoint holo_diff_fuel (fuel : nat) (x y : list Q) (M : Z) : result (list Q) :=
  match fuel with
  | O => Raise OutOfFuel
  | S fuel' =>
      if negb (length x =? length y)%nat
      then Raise (AssertionError (length x) (length y))
      else
        (* [N = 2*M + 1] and [m = (N - 3)/2] are assigned and never read *)
        let c := coeffs M in
        let df := repeat 0%Q (length y) in
        let nf := len y in
        fk <- zeros2 M (nf - 2 * M) ;;
        fk <- stencil_loop x y M (Z.to_nat (nf - 2 * M)) (enumerate c) fk ;;
        df <- set_slice df (Some M) (Some (- M))
                (sum_axis0 (Z.to_nat (nf - 2 * M)) fk) ;;
        if 1 <? M then
          dflo <- holo_diff_fuel fuel' (slice x None (Some (2 * M)))
                    (slice y None (Some (2 * M))) (M - 1) ;;
          dfhi <- holo_diff_fuel fuel' (slice x (Some (- 2 * M)) None)
                    (slice y (Some (- 2 * M)) None) (M - 1) ;;
          df <- set_slice df None (Some M) (slice dflo None (Some M)) ;;
          set_slice df (Some (- M)) None (slice dfhi (Some (- M)) None)
        else
          y1 <- index y 1 ;; y0 <- index y 0 ;;
          x1 <- index x 1 ;; x0 <- index x 0 ;;
          df <- set_index df 0 ((y1 - y0) / (x1 - x0))%Q ;;
          yl <- index y (-1) ;; yp <- index y (-2) ;;
          xl <- index x (-1) ;; xp <- index x (-2) ;;
          set_index df (-1) ((yl - yp) / (xl - xp))%Q
  end.

(** The first argument of [holo_diff]: a scalar step or an array. *)
Inductive abscissa : Type :=
| Scalar (h : Q)
| Array (xs : list Q).

(** [x*np.arange(len(y))] when [np.isscalar(x)] *)
Definition expand (x : abscissa) (n : nat) : list Q :=
  match x with
  | Scalar h => map (fun i => (h * inject_Z i)%Q) (arange 0 (Z.of_nat n))
  | Array xs => xs
  end.

Definition holo_diff (x : abscissa) (y : list Q) (M : Z) : result (list Q) :=
  holo_diff_fuel (Z.to_nat (Z.max M 1)) (expand x (length y)) y M.

(** ** Notions used by the statements *)

(** [l[i]] for an index that is known to be in range. *)
Definition qat (l : list Q) (i : Z) : Q := nth (Z.to_nat i) l 0%Q.

Definition Qsum (l : list Q) : Q := fold_right Qplus 0%Q l.

(** The contribution of offset [k], with weight [cc], to the estimate at [i]. *)
Definition stencil_term (x y : list Q) (k : Z) (cc : Q) (i : Z) : Q :=
  (2 * inject_Z k * cc * (qat y (i + k) - qat y (i - k))
   / (qat x (i + k) - qat x (i - k)))%Q.

(** The interior estimate at [i], summed in the order of [fk.sum(axis=0)]. *)
Definition stencil_at (x y : list Q) (M : Z) (i : Z) : Q :=
  fold_left Qplus
    (map (fun ic => stencil_term x y (Z.of_nat (fst ic) + 1) (snd ic) i)
       (enumerate (coeffs M))) 0%Q.

Definition interior (x y : list Q) (M : Z) : list Q :=
  map (fun j => stencil_at x y M (M + Z.of_nat j))
    (seq 0 (Z.to_nat (len y - 2 * M))).

(** Row [i] of [fk]: the contributions of offset [i + 1] at every interior
    index. *)
Definition stencil_row (x y : list Q) (M : Z) (ic : nat * Q) : list Q :=
  map (fun j => stencil_term x y (Z.of_nat (fst ic) + 1) (snd ic)
                  (M + Z.of_nat j)) (seq 0 (Z.to_nat (len y - 2 * M))).

(** Two-point slopes at the two ends. *)
Definition edge_lo (x y : list Q) : Q :=
  ((qat y 1 - qat y 0) / (qat x 1 - qat x 0))%Q.

Definition edge_hi (x y : list Q) : Q :=
  ((qat y (len y - 1) - qat y (len y - 2))
   / (qat x (len x - 1) - qat x (len x - 2)))%Q.

(** [estimate m x y] is what [holo_diff] returns at order [m + 1]: the
    interior is the stencil, the ends come from the order below. *)
Fixpoint estimate (m : nat) (x y : list Q) : list Q :=
  let M := Z.of_nat (S m) in
  match m with
  | O => [edge_lo x y] ++ interior x y M ++ [edge_hi x y]
  | S m' =>
      firstn (S m) (estimate m' (slice x None (Some (2 * M)))
                      (slice y None (Some (2 * M))))
      ++ interior x y M
      ++ skipn (S m) (estimate m' (slice x (Some (- 2 * M)) None)
                        (slice y (Some (- 2 * M)) None))
  end.

(** The array operations raise numpy's own errors only. *)
Definition only_numpy {A} (r : result A) : Prop :=
  forall e, r = Raise e -> e = ValueError \/ e = IndexError.

(** [x] is a scalar, or an array as long as [y]. *)
Definition matching (x : abscissa) (y : list Q) : Prop :=
  match x with
  | Scalar _ => True
  | Array xs => length xs = length y
  end.

(** The stencil of the specification: the sum over [k = 1..M] of
    [2*k*c[k]*(y[i+k] - y[i-k])/(x[i+k] - x[i-k])], [c[k]] being the [k]-th
    entry of [coeffs(M)] counted from 1. *)
Definition stencil_sum (x y : list Q) (M : Z) (i : Z) : Q :=
  Qsum (map (fun k => (2 * inject_Z k * qat (coeffs M) (k - 1)
                       * (qat y (i + k) - qat y (i - k))
                       / (qat x (i + k) - qat x (i - k)))%Q)
          (arange 1 (M + 1))).

(** The binomial coefficient of the specification: [n!/(r!(n-r)!)], and 0
    when [r < 0] or [r > n]. *)
Definition C (n r : Z) : Q :=
  if (r <? 0) || (n <? r) then 0%Q
  else (inject_Z (Z.of_nat (fact (Z.to_nat n)))
        / (inject_Z (Z.of_nat (fact (Z.to_nat r)))
           * inject_Z (Z.of_nat (fact (Z.to_nat (n - r))))))%Q.

(** The closed form of the specification for the [k]-th coefficient. *)
Definition coeff_formula (M k : Z) : Q :=
  let m := (2 * M - 2) / 2 in
  (1 / 2 ^ (2 * m + 1) * (C (2 * m) (m - k + 1) - C (2 * m) (m - k - 1)))%Q.

(** The weighted sum of the coefficients, [sum_{k=1}^{M} k*c[k]]. *)
Definition weighted_sum (M : Z) : Q :=
  Qsum (map (fun k => (inject_Z k * qat (coeffs M) (k - 1))%Q)
          (arange 1 (M + 1))).

(** Strictly increasing abscissae. *)
Definition increasing (l : list Q) : Prop :=
  forall i j, (i < j < length l)%nat -> (nth i l 0 < nth j l 0)%Q.

(** [y[i] = a*x[i] + b] at every index. *)
Definition affine (a b : Q) (x y : list Q) : Prop :=
  forall i, (i < length y)%nat -> (nth i y 0 == a * nth i x 0 + b)%Q.

(** The order that is in effect at index [i] of [n] samples: the distance
    to the nearer end, and [M] at most. *)
Definition order_at (n M i : Z) : Z := Z.min M (Z.min i (n - 1 - i)).

(** Entry [i] of the result of [holo_diff], without the recursion. *)
Definition entry (x y : list Q) (M i : Z) : Q :=
  if i =? 0 then edge_lo x y
  else if i =? len y - 1 then edge_hi x y
  else stencil_at x y (order_at (len y) M i) i.

(** On a uniform grid the stencil of order [r] is this sum divided by the
    step: the sum over [k = 1..r] of [c[k]*(y[i+k] - y[i-k])]. *)
Definition uniform_sum (y : list Q) (r i : Z) : Q :=
  Qsum (map (fun k => (qat (coeffs r) (k - 1)
                       * (qat y (i + k) - qat y (i - k)))%Q)
          (arange 1 (r + 1))).

(** [w[j] = alpha*y[j] + beta*z[j]] at every index. *)
Definition combination (alpha beta : Q) (y z w : list Q) : Prop :=
  length y = length w /\ length z = length w
  /\ forall j, (j < length w)%nat ->
                (nth j w 0 == alpha * nth j y 0 + beta * nth j z 0)%Q.

(** [x'[j] = s*x[j] + t] at every index. *)
Definition rescaled (s t : Q) (x x' : list Q) : Prop :=
  length x' = length x
  /\ forall j, (j < length x)%nat -> (nth j x' 0 == s * nth j x 0 + t)%Q.

(** [y[j] = a*x[j]^2 + b*x[j] + c] at every index. *)
Definition quadratic (a b c : Q) (x y : list Q) : Prop :=
  forall j, (j < length y)%nat ->
            (nth j y 0 == a * (nth j x 0 * nth j x 0) + b * nth j x 0 + c)%Q.

(** Pairwise distinct abscissae. *)
Definition distinct (l : list Q) : Prop :=
  forall i j, (i < j < length l)%nat -> ~ (nth i l 0 == nth j l 0)%Q.

(** ** The embedding at work *)

Example coeffs_1 : coeffs 1 = [1 # 2].
Proof. reflexivity. Qed.

Example coeffs_2 : coeffs 2 = [2 # 8; 1 # 8].
Proof. reflexivity. Qed.

Example coeffs_3 : coeffs 3 = [5 # 32; 4 # 32; 1 # 32].
Proof. reflexivity. Qed.

(** [x = 0..9], [y = x^2], order 2: the interior is [2x], the ends are not. *)
Example holo_diff_squares :
  holo_diff (Array [0; 1; 2; 3; 4; 5; 6; 7; 8; 9]%Q)
    [0; 1; 4; 9; 16; 25; 36; 49; 64; 81]%Q 2
  = Ok [1; 8 # 4; 2048 # 512; 3072 # 512; 4096 # 512; 5120 # 512;
        6144 # 512; 7168 # 512; 64 # 4; 17]%Q.
Proof. vm_compute. reflexivity. Qed.

Example holo_diff_mismatch :
  holo_diff (Array [0; 1; 2; 3; 4]%Q) [0; 1; 4; 9; 16; 25]%Q 2
  = Raise (AssertionError 5 6).
Proof. reflexivity. Qed.

(** Too few samples: [np.zeros((M, nf - 2*M))] has a negative dimension. *)
Example holo_diff_too_short :
  holo_diff (Scalar 1) [1; 2; 4]%Q 2 = Raise ValueError.
Proof. reflexivity. Qed.

(** ** Lists, slices and stores *)

Section Lists.
Context {A : Type}.
Implicit Types l u v : list A.

Lemma nth_map_seq {B} (f : nat -> B) (n w : nat) (d : B) :
  (n < w)%nat -> nth n (map f (seq 0 w)) d = f n.
Proof.
  intros H. rewrite (nth_indep _ d (f O)) by (rewrite length_map, length_seq; lia).
  rewrite map_nth, seq_nth; auto.
Qed.

Lemma window l (d : A) (a w : nat) :
  (a + w <= length l)%nat ->
  firstn w (skipn a l) = map (fun j => nth (a + j) l d) (seq 0 w).
Proof.
  intros H. apply (nth_ext _ _ d d).
  - rewrite length_firstn, length_skipn, length_map, length_seq. lia.
  - intros n Hn. rewrite length_firstn, length_skipn in Hn.
    rewrite nth_firstn, nth_skipn, nth_map_seq by lia.
    destruct (Nat.ltb_spec n w); [reflexivity | lia].
Qed.

Lemma clamp_nonneg (n i : Z) : 0 <= i <= n -> clamp n i = i.
Proof. unfold clamp. intros H. destruct (Z.ltb_spec i 0); lia. Qed.

Lemma clamp_neg (n i : Z) : i < 0 -> 0 <= i + n -> clamp n i = i + n.
Proof. unfold clamp. intros H H'. destruct (Z.ltb_spec i 0); lia. Qed.

Lemma slice_head l (b : Z) :
  0 <= b <= len l -> slice l None (Some b) = firstn (Z.to_nat b) l.
Proof.
  intros H. unfold slice, lower, upper. rewrite clamp_nonneg by lia.
  rewrite Z.sub_0_r. reflexivity.
Qed.

Lemma slice_tail l (c : Z) :
  0 < c <= len l -> slice l (Some (- c)) None = skipn (Z.to_nat (len l - c)) l.
Proof.
  intros H. unfold slice, lower, upper. rewrite clamp_neg by lia.
  replace (- c + len l) with (len l - c) by lia.
  apply firstn_all2. rewrite length_skipn. unfold len in *. lia.
Qed.

Lemma map2_map {B C D} (f : B -> C -> D) (g : A -> B) (h : A -> C) l :
  map2 f (map g l) (map h l) = map (fun a => f (g a) (h a)) l.
Proof. induction l; simpl; congruence. Qed.

Lemma enumerate_seq (d : A) l :
  enumerate l = map (fun i => (i, nth i l d)) (seq 0 (length l)).
Proof.
  unfold enumerate. apply (nth_ext _ _ (O, d) (O, d)).
  - rewrite length_combine, length_map, !length_seq. lia.
  - intros n Hn. rewrite length_combine, length_seq, Nat.min_id in Hn.
    rewrite combine_nth, nth_map_seq, seq_nth by (rewrite ?length_seq; lia).
    reflexivity.
Qed.
End Lists.

Lemma broadcast2_same (f : Q -> Q -> Q) (u v : list Q) :
  length u = length v -> broadcast2 f u v = Ok (map2 f u v).
Proof. intros H. unfold broadcast2. now rewrite H, Nat.eqb_refl. Qed.

Lemma broadcast_to_same (w : nat) (v : list Q) :
  length v = w -> broadcast_to w v = Ok v.
Proof. intros H. unfold broadcast_to. now rewrite H, Nat.eqb_refl. Qed.

(** A window of [cols] cells of [l] from [a], as numpy slices it. *)
Lemma slice_window (l : list Q) (lo : Z) (hi : option Z) (a : Z) (cols : nat) :
  0 <= a -> a + Z.of_nat cols <= len l ->
  lower (len l) (Some lo) = a ->
  upper (len l) hi = a + Z.of_nat cols ->
  slice l (Some lo) hi = map (fun j => qat l (a + Z.of_nat j)) (seq 0 cols).
Proof.
  intros Ha Hc Hlo Hhi. unfold slice. rewrite Hlo, Hhi.
  replace (Z.to_nat (a + Z.of_nat cols - a)) with cols by lia.
  rewrite (window l 0%Q) by (unfold len in *; lia).
  apply map_ext. intros j. unfold qat. f_equal. lia.
Qed.

Lemma repeat_map_seq {A} (c : A) (n s : nat) :
  repeat c n = map (fun _ => c) (seq s n).
Proof. revert s. induction n; intros s; simpl; [|rewrite <- IHn]; reflexivity. Qed.

Lemma firstn_app_exact {A} (a r : list A) n :
  n = length a -> firstn n (a ++ r) = a.
Proof.
  intros ->. rewrite firstn_app, Nat.sub_diag, firstn_all. simpl. apply app_nil_r.
Qed.

Lemma skipn_app_exact {A} (a r : list A) n :
  n = length a -> skipn n (a ++ r) = r.
Proof.
  intros ->. rewrite skipn_app, Nat.sub_diag, skipn_all. reflexivity.
Qed.

Lemma set_slice_mid (a b c v : list Q) (M : Z) :
  0 < M -> M = len a -> M = len c -> length v = length b ->
  set_slice (a ++ b ++ c) (Some M) (Some (- M)) v = Ok (a ++ v ++ c).
Proof.
  intros HM Ha Hc Hv. unfold set_slice, lower, upper, len in *.
  rewrite !length_app. rewrite (clamp_nonneg _ M), (clamp_neg _ (- M)) by lia.
  rewrite broadcast_to_same by lia. simpl.
  rewrite firstn_app_exact by lia.
  rewrite (app_assoc a b c), skipn_app_exact by (rewrite length_app; lia).
  reflexivity.
Qed.

Lemma set_slice_head (a r v : list Q) (M : Z) :
  M = len a -> length v = length a ->
  set_slice (a ++ r) None (Some M) v = Ok (v ++ r).
Proof.
  intros Ha Hv. unfold set_slice, lower, upper, len in *.
  rewrite length_app. rewrite clamp_nonneg by lia.
  rewrite broadcast_to_same by lia. simpl.
  rewrite skipn_app_exact by lia. reflexivity.
Qed.

Lemma set_slice_tail (r c v : list Q) (M : Z) :
  0 < M -> M = len c -> length v = length c ->
  set_slice (r ++ c) (Some (- M)) None v = Ok (r ++ v).
Proof.
  intros HM Hc Hv. unfold set_slice, lower, upper, len in *.
  rewrite length_app. rewrite clamp_neg by lia.
  rewrite broadcast_to_same by lia. simpl.
  rewrite firstn_app_exact by lia.
  rewrite skipn_all2 by (rewrite length_app; lia).
  now rewrite app_nil_r.
Qed.

Lemma set_index_first (a q : Q) (r : list Q) :
  set_index (a :: r) 0 q = Ok (q :: r).
Proof.
  unfold set_index, len. simpl length.
  destruct (Z.ltb_spec 0 (Z.of_nat (S (length r)))); [reflexivity | lia].
Qed.

Lemma set_index_last (r : list Q) (c q : Q) :
  set_index (r ++ [c]) (-1) q = Ok (r ++ [q]).
Proof.
  unfold set_index, len. rewrite length_app. simpl length.
  change (-1 <? 0) with true. cbv iota.
  replace (-1 + Z.of_nat (length r + 1)) with (Z.of_nat (length r)) by lia.
  destruct (Z.leb_spec 0 (Z.of_nat (length r))); [|lia].
  destruct (Z.ltb_spec (Z.of_nat (length r)) (Z.of_nat (length r + 1))); [|lia].
  cbn [andb]. rewrite Nat2Z.id, firstn_app_exact by reflexivity.
  rewrite skipn_all2 by (rewrite length_app; simpl; lia).
  reflexivity.
Qed.

Lemma index_ok (l : list Q) (i : Z) :
  0 <= i < len l -> index l i = Ok (qat l i).
Proof.
  intros H. unfold index, qat.
  destruct (Z.ltb_spec i 0); [lia|].
  destruct (Z.leb_spec 0 i); [|lia].
  destruct (Z.ltb_spec i (len l)); [|lia]. simpl.
  rewrite (nth_error_nth' l 0%Q) by (unfold len in *; lia). reflexivity.
Qed.

Lemma index_back (l : list Q) (i : Z) :
  0 < i <= len l -> index l (- i) = Ok (qat l (len l - i)).
Proof.
  intros H. unfold index, qat.
  destruct (Z.ltb_spec (- i) 0); [|lia].
  destruct (Z.leb_spec 0 (- i + len l)); [|lia].
  destruct (Z.ltb_spec (- i + len l) (len l)); [|lia]. simpl.
  rewrite (nth_error_nth' l 0%Q) by (unfold len in *; lia).
  do 3 f_equal. lia.
Qed.

Lemma set_row_ok (cols : nat) (pre post : list (list Q)) (p r : list Q) (i : nat) :
  i = length pre -> length r = cols ->
  set_row cols (pre ++ p :: post) i r = Ok (pre ++ r :: post).
Proof.
  intros -> Hr. unfold set_row. rewrite length_app. simpl length.
  destruct (Nat.ltb_spec (length pre) (length pre + S (length post))); [|lia].
  rewrite broadcast_to_same by assumption. cbn [bind].
  rewrite firstn_app_exact by reflexivity.
  rewrite (skipn_app (S (length pre))), skipn_all2 by lia.
  replace (S (length pre) - length pre)%nat with 1%nat by lia.
  reflexivity.
Qed.

Lemma sum_axis0_rows {I} (F : I -> nat -> Q) (its : list I) (cols : nat)
    (acc : nat -> Q) :
  fold_left (map2 Qplus) (map (fun ic => map (F ic) (seq 0 cols)) its)
    (map acc (seq 0 cols))
  = map (fun j => fold_left Qplus (map (fun ic => F ic j) its) (acc j))
      (seq 0 cols).
Proof.
  revert acc. induction its as [|ic its IH]; intros acc; simpl.
  - reflexivity.
  - rewrite map2_map. apply (IH (fun j => (acc j + F ic j)%Q)).
Qed.

Lemma length_arange (a b : Z) : length (arange a b) = Z.to_nat (b - a).
Proof. unfold arange. now rewrite length_map, length_seq. Qed.

Lemma length_coeffs (M : Z) : length (coeffs M) = Z.to_nat M.
Proof.
  unfold coeffs. rewrite length_map, length_arange. f_equal. lia.
Qed.

Lemma length_interior (x y : list Q) (M : Z) :
  length (interior x y M) = Z.to_nat (len y - 2 * M).
Proof. unfold interior. now rewrite length_map, length_seq. Qed.

(** ** The interior pass of [holo_diff] *)

Section Interior.
Variables (x y : list Q) (M : Z).
Hypothesis Hlen : length x = length y.
Hypothesis HM : 1 <= M.
Hypothesis Hn : 2 * M <= len y.

Abbreviation cols := (Z.to_nat (len y - 2 * M)).

Lemma slice_right (l : list Q) (k : Z) :
  length l = length y -> 1 <= k <= M ->
  slice l (Some (M + k)) (if - M + k =? 0 then None else Some (- M + k))
  = map (fun j => qat l (M + Z.of_nat j + k)) (seq 0 cols).
Proof.
  intros Hl Hk.
  assert (Hll : len l = len y) by (unfold len; now rewrite Hl).
  rewrite (slice_window l _ _ (M + k) cols).
  - apply map_ext. intros j. f_equal. lia.
  - lia.
  - lia.
  - unfold lower. apply clamp_nonneg. lia.
  - destruct (Z.eqb_spec (- M + k) 0); unfold upper.
    + lia.
    + rewrite clamp_neg; lia.
Qed.

Lemma slice_left (l : list Q) (k : Z) :
  length l = length y -> 1 <= k <= M ->
  slice l (Some (M - k)) (Some (- M - k))
  = map (fun j => qat l (M + Z.of_nat j - k)) (seq 0 cols).
Proof.
  intros Hl Hk.
  assert (Hll : len l = len y) by (unfold len; now rewrite Hl).
  rewrite (slice_window l _ _ (M - k) cols).
  - apply map_ext. intros j. f_equal. lia.
  - lia.
  - lia.
  - unfold lower. apply clamp_nonneg. lia.
  - unfold upper. rewrite clamp_neg; lia.
Qed.

Lemma stencil_loop_ok (cs : list Q) :
  forall (s : nat) (pre post : list (list Q)),
    length pre = s -> length post = length cs ->
    Z.of_nat (s + length cs) <= M ->
    stencil_loop x y M cols (combine (seq s (length cs)) cs) (pre ++ post)
    = Ok (pre ++ map (stencil_row x y M) (combine (seq s (length cs)) cs)).
Proof.
  induction cs as [|cc cs IH]; intros s pre post Hpre Hpost Hs.
  - destruct post; [|discriminate]. reflexivity.
  - destruct post as [|p post]; [discriminate|].
    simpl length in *. cbn [seq combine stencil_loop map].
    rewrite !slice_right, !slice_left by (auto; lia).
    rewrite broadcast2_same by now rewrite !length_map.
    cbn [bind]. rewrite map2_map.
    rewrite broadcast2_same by now rewrite !length_map.
    cbn [bind]. rewrite map2_map, map_map.
    rewrite broadcast2_same by now rewrite !length_map.
    cbn [bind]. rewrite map2_map.
    rewrite set_row_ok by (auto; now rewrite length_map, length_seq).
    cbn [bind].
    change (pre ++ ?r :: post) with (pre ++ [r] ++ post).
    rewrite app_assoc, IH.
    + rewrite <- app_assoc. reflexivity.
    + rewrite length_app. simpl. lia.
    + lia.
    + lia.
Qed.

Lemma fill_interior {B} (K : list Q -> result B) :
  (fk <- zeros2 M (len y - 2 * M) ;;
   fk <- stencil_loop x y M cols (enumerate (coeffs M)) fk ;;
   df <- set_slice (repeat 0%Q (length y)) (Some M) (Some (- M))
           (sum_axis0 cols fk) ;;
   K df)
  = K (repeat 0%Q (Z.to_nat M) ++ interior x y M ++ repeat 0%Q (Z.to_nat M)).
Proof.
  unfold zeros2.
  destruct (Z.ltb_spec M 0); [lia|].
  destruct (Z.ltb_spec (len y - 2 * M) 0); [lia|]. cbn [orb bind].
  unfold enumerate.
  rewrite <- (app_nil_l (repeat _ (Z.to_nat M))).
  rewrite stencil_loop_ok
    by (rewrite ?repeat_length, ?length_coeffs; simpl; auto; lia).
  cbn [bind app]. unfold sum_axis0.
  rewrite (repeat_map_seq 0%Q cols 0).
  unfold stencil_row. rewrite sum_axis0_rows.
  replace (repeat 0%Q (length y))
    with (repeat 0%Q (Z.to_nat M) ++ repeat 0%Q cols ++ repeat 0%Q (Z.to_nat M))
    by (rewrite <- !repeat_app; f_equal; unfold len in *; lia).
  rewrite set_slice_mid
    by (unfold len; rewrite ?repeat_length, ?length_map, ?length_seq; lia).
  reflexivity.
Qed.
End Interior.

(** ** The value of [holo_diff] on well-formed input *)

Lemma length_slice_head {A} (l : list A) (b : Z) :
  0 <= b <= len l -> length (slice l None (Some b)) = Z.to_nat b.
Proof.
  intros H. rewrite slice_head, length_firstn by assumption.
  unfold len in *. lia.
Qed.

Lemma length_slice_tail {A} (l : list A) (c : Z) :
  0 < c <= len l -> length (slice l (Some (- c)) None) = Z.to_nat c.
Proof.
  intros H. rewrite slice_tail, length_skipn by assumption.
  unfold len in *. lia.
Qed.

Lemma holo_diff_fuel_estimate (m : nat) :
  forall (fuel : nat) (x y : list Q),
    (m < fuel)%nat -> length x = length y ->
    2 * Z.of_nat (S m) <= len y ->
    holo_diff_fuel fuel x y (Z.of_nat (S m)) = Ok (estimate m x y)
    /\ length (estimate m x y) = length y.
Proof.
  induction m as [|m IH]; intros fuel x y Hf Hlen Hn.
  - destruct fuel as [|fuel]; [lia|]. split.
    + cbn [holo_diff_fuel]. rewrite Hlen, Nat.eqb_refl. cbn [negb].
      rewrite fill_interior by (auto; lia).
      change (1 <? Z.of_nat 1) with false. cbv iota.
      assert (Hx : len x = len y) by (unfold len; now rewrite Hlen).
      rewrite !index_ok by lia. cbn [bind].
      change (Z.to_nat (Z.of_nat 1)) with 1%nat. cbn [repeat app].
      rewrite set_index_first. cbn [bind].
      change (-1) with (Z.opp 1). change (-2) with (Z.opp 2).
      rewrite (index_back y 1), (index_back y 2), (index_back x 1),
        (index_back x 2) by lia.
      cbn [bind]. rewrite app_comm_cons, set_index_last.
      reflexivity.
    + cbn [estimate]. rewrite !length_app, length_interior. simpl length.
      unfold len in *. lia.
  - destruct fuel as [|fuel]; [lia|].
    assert (Hx : len x = len y) by (unfold len; now rewrite Hlen).
    set (M := Z.of_nat (S (S m))) in *.
    assert (HM : 2 <= M) by (unfold M; lia).
    destruct (IH fuel (slice x None (Some (2 * M))) (slice y None (Some (2 * M))))
      as [Elo Llo].
    { lia. }
    { rewrite !length_slice_head by lia. reflexivity. }
    { unfold len. rewrite length_slice_head by lia. lia. }
    destruct (IH fuel (slice x (Some (- 2 * M)) None) (slice y (Some (- 2 * M)) None))
      as [Ehi Lhi].
    { lia. }
    { replace (- 2 * M) with (- (2 * M)) by lia.
      rewrite !length_slice_tail by lia. reflexivity. }
    { replace (- 2 * M) with (- (2 * M)) by lia.
      unfold len. rewrite length_slice_tail by lia. lia. }
    replace (Z.of_nat (S m)) with (M - 1) in Elo, Ehi by lia.
    rewrite length_slice_head in Llo by lia.
    replace (length (slice y (Some (- 2 * M)) None)) with (Z.to_nat (2 * M)) in Lhi
      by (replace (- 2 * M) with (- (2 * M)) by lia;
          now rewrite length_slice_tail by lia).
    split.
    + cbn [holo_diff_fuel]. fold M. rewrite Hlen, Nat.eqb_refl. cbn [negb].
      rewrite fill_interior by (auto; lia).
      destruct (Z.ltb_spec 1 M); [|lia].
      rewrite Elo, Ehi. cbn [bind].
      rewrite !slice_head by (unfold len; lia).
      rewrite set_slice_head
        by (unfold len; rewrite ?repeat_length, ?length_firstn; lia).
      cbn [bind]. rewrite app_assoc.
      rewrite slice_tail by (unfold len; lia).
      rewrite set_slice_tail
        by (unfold len; rewrite ?repeat_length, ?length_skipn; lia).
      rewrite <- app_assoc. cbn [estimate]. fold M.
      do 3 f_equal.
      * unfold M. lia.
      * f_equal. unfold len. rewrite Lhi. unfold M. lia.
    + cbn [estimate]. fold M.
      rewrite !length_app, length_firstn, length_skipn, length_interior.
      rewrite Llo, Lhi. unfold len in *. lia.
Qed.

(** ** Which exceptions can escape *)

Lemma only_numpy_ok {A} (a : A) : only_numpy (Ok a).
Proof. intros e H. discriminate. Qed.

Lemma only_numpy_value {A} : only_numpy (@Raise A ValueError).
Proof. intros e H. injection H as <-. now left. Qed.

Lemma only_numpy_index {A} : only_numpy (@Raise A IndexError).
Proof. intros e H. injection H as <-. now right. Qed.

Lemma only_numpy_bind {A B} (r : result A) (f : A -> result B) :
  only_numpy r -> (forall a, only_numpy (f a)) -> only_numpy (bind r f).
Proof.
  intros Hr Hf. destruct r as [a|e]; simpl.
  - apply Hf.
  - intros e' H. injection H as <-. now apply Hr.
Qed.

Create HintDb numpy.
#[local] Hint Resolve only_numpy_ok only_numpy_value only_numpy_index : numpy.

Lemma only_numpy_broadcast2 f u v : only_numpy (broadcast2 f u v).
Proof.
  unfold broadcast2. destruct (length u =? length v)%nat; auto with numpy.
  destruct u as [|a [|a' u]], v as [|b [|b' v]]; auto with numpy.
Qed.

Lemma only_numpy_broadcast_to w v : only_numpy (broadcast_to w v).
Proof.
  unfold broadcast_to. destruct (length v =? w)%nat; auto with numpy.
  destruct v as [|c [|c' v]]; auto with numpy.
Qed.

Lemma only_numpy_set_slice l lo hi v : only_numpy (set_slice l lo hi v).
Proof.
  unfold set_slice. apply only_numpy_bind; auto with numpy.
  apply only_numpy_broadcast_to.
Qed.

Lemma only_numpy_set_index l i q : only_numpy (set_index l i q).
Proof. unfold set_index. destruct (_ && _); auto with numpy. Qed.

Lemma only_numpy_index_at {A} (l : list A) i : only_numpy (index l i).
Proof.
  unfold index. destruct (_ && _); auto with numpy.
  destruct (nth_error _ _); auto with numpy.
Qed.

Lemma only_numpy_zeros2 r c : only_numpy (zeros2 r c).
Proof. unfold zeros2. destruct (_ || _); auto with numpy. Qed.

Lemma only_numpy_set_row cols fk i r : only_numpy (set_row cols fk i r).
Proof.
  unfold set_row. destruct (i <? length fk)%nat; auto with numpy.
  apply only_numpy_bind; auto with numpy. apply only_numpy_broadcast_to.
Qed.

Lemma only_numpy_stencil_loop x y M cols its :
  forall fk, only_numpy (stencil_loop x y M cols its fk).
Proof.
  induction its as [|[i cc] its IH]; intros fk; cbn [stencil_loop].
  - auto with numpy.
  - repeat (apply only_numpy_bind;
            [first [apply only_numpy_broadcast2 | apply only_numpy_set_row]
            | intros ?]).
    apply IH.
Qed.

Lemma length_slice_eq {A B} (u : list A) (v : list B) lo hi :
  length u = length v -> length (slice u lo hi) = length (slice v lo hi).
Proof.
  intros H. unfold slice, len.
  rewrite !length_firstn, !length_skipn, H. reflexivity.
Qed.

(** With equal lengths and fuel for [M] frames, neither the assertion nor
    the fuel can fail. *)
Lemma only_numpy_holo_diff_fuel (fuel : nat) :
  forall x y M,
    Z.max M 1 <= Z.of_nat fuel -> length x = length y ->
    only_numpy (holo_diff_fuel fuel x y M).
Proof.
  induction fuel as [|fuel IH]; intros x y M Hf Hlen; [lia|].
  cbn [holo_diff_fuel]. rewrite Hlen, Nat.eqb_refl. cbn [negb].
  apply only_numpy_bind; [apply only_numpy_zeros2 | intros fk0].
  apply only_numpy_bind; [apply only_numpy_stencil_loop | intros fk].
  apply only_numpy_bind; [apply only_numpy_set_slice | intros df].
  destruct (Z.ltb_spec 1 M).
  - apply only_numpy_bind;
      [apply IH; [lia | now apply length_slice_eq] | intros dflo].
    apply only_numpy_bind;
      [apply IH; [lia | now apply length_slice_eq] | intros dfhi].
    apply only_numpy_bind; [apply only_numpy_set_slice | intros df'].
    apply only_numpy_set_slice.
  - repeat (apply only_numpy_bind;
            [first [apply only_numpy_index_at | apply only_numpy_set_index]
            | intros ?]).
    apply only_numpy_set_index.
Qed.

(** The fuel that [holo_diff] supplies is never exhausted: [OutOfFuel]
    is not a behaviour of the program. *)
Lemma holo_diff_total (x : abscissa) (y : list Q) (M : Z) :
  holo_diff x y M <> Raise OutOfFuel.
Proof.
  unfold holo_diff. intros E.
  destruct (Nat.eq_dec (length (expand x (length y))) (length y)) as [Hl|Hl].
  - assert (Hf : Z.max M 1 <= Z.of_nat (Z.to_nat (Z.max M 1))) by lia.
    destruct (only_numpy_holo_diff_fuel _ _ _ M Hf Hl _ E); discriminate.
  - destruct (Z.to_nat (Z.max M 1)) as [|f] eqn:Ef; [lia|].
    cbn [holo_diff_fuel] in E. apply Nat.eqb_neq in Hl. rewrite Hl in E.
    discriminate.
Qed.

(** ** Well-formed calls *)

Lemma length_expand (x : abscissa) (y : list Q) :
  matching x y -> length (expand x (length y)) = length y.
Proof.
  destruct x as [h|xs]; simpl; intros H; [|assumption].
  rewrite length_map, length_arange. lia.
Qed.

Lemma holo_diff_estimate (x : abscissa) (y : list Q) (M : Z) :
  1 <= M -> matching x y -> 2 * M <= len y ->
  holo_diff x y M = Ok (estimate (Z.to_nat (M - 1)) (expand x (length y)) y)
  /\ length (estimate (Z.to_nat (M - 1)) (expand x (length y)) y) = length y.
Proof.
  intros HM Hx Hn. unfold holo_diff.
  replace M with (Z.of_nat (S (Z.to_nat (M - 1)))) at 2 by lia.
  apply holo_diff_fuel_estimate.
  - lia.
  - now apply length_expand.
  - lia.
Qed.

Lemma estimate_parts (m : nat) (x y : list Q) :
  length x = length y -> 2 * Z.of_nat (S m) <= len y ->
  exists lo hi,
    estimate m x y = lo ++ interior x y (Z.of_nat (S m)) ++ hi
    /\ length lo = S m /\ length hi = S m.
Proof.
  intros Hlen Hn. destruct m as [|m].
  - exists [edge_lo x y], [edge_hi x y]. repeat split.
  - set (M := Z.of_nat (S (S m))) in *.
    assert (Hx : len x = len y) by (unfold len; now rewrite Hlen).
    destruct (holo_diff_fuel_estimate m (S m)
                (slice x None (Some (2 * M))) (slice y None (Some (2 * M))))
      as [_ Llo].
    { lia. }
    { rewrite !length_slice_head by lia. reflexivity. }
    { unfold len. rewrite length_slice_head by lia. lia. }
    destruct (holo_diff_fuel_estimate m (S m)
                (slice x (Some (- (2 * M))) None) (slice y (Some (- (2 * M))) None))
      as [_ Lhi].
    { lia. }
    { rewrite !length_slice_tail by lia. reflexivity. }
    { unfold len. rewrite length_slice_tail by lia. lia. }
    rewrite length_slice_head in Llo by lia.
    rewrite length_slice_tail in Lhi by lia.
    replace (- (2 * M)) with (- 2 * M) in Lhi by lia.
    eexists _, _. cbn [estimate]. fold M. split; [reflexivity|].
    rewrite length_firstn, length_skipn, Llo, Lhi. unfold M. lia.
Qed.

(** Too little fuel is reported as such, whatever the data. *)
Lemma holo_diff_fuel_short (fuel : nat) :
  forall x y M,
    Z.of_nat fuel < M -> length x = length y -> 2 * M <= len y ->
    holo_diff_fuel fuel x y M = Raise OutOfFuel.
Proof.
  induction fuel as [|fuel IH]; intros x y M Hf Hlen Hn; [reflexivity|].
  assert (Hx : len x = len y) by (unfold len; now rewrite Hlen).
  cbn [holo_diff_fuel]. rewrite Hlen, Nat.eqb_refl. cbn [negb].
  rewrite fill_interior by (auto; lia).
  destruct (Z.ltb_spec 1 M); [|lia].
  rewrite IH; [reflexivity | lia | |].
  - rewrite !length_slice_head by lia. reflexivity.
  - unfold len. rewrite length_slice_head by lia. lia.
Qed.

(** The recursion equation of [holo_diff] above order 1. *)
Lemma holo_diff_fuel_rec (fuel : nat) (x y : list Q) (M : Z) :
  1 < M -> length x = length y -> 2 * M <= len y ->
  holo_diff_fuel (S fuel) x y M
  = (dflo <- holo_diff_fuel fuel (slice x None (Some (2 * M)))
               (slice y None (Some (2 * M))) (M - 1) ;;
     dfhi <- holo_diff_fuel fuel (slice x (Some (- 2 * M)) None)
               (slice y (Some (- 2 * M)) None) (M - 1) ;;
     Ok (firstn (Z.to_nat M) dflo ++ interior x y M
         ++ skipn (Z.to_nat M) dfhi)).
Proof.
  intros HM Hlen Hn.
  assert (Hx : len x = len y) by (unfold len; now rewrite Hlen).
  destruct (Z_lt_le_dec (Z.of_nat fuel) (M - 1)) as [Hs|Hs].
  - rewrite holo_diff_fuel_short by (auto; lia).
    rewrite holo_diff_fuel_short; [reflexivity | lia | |].
    + rewrite !length_slice_head by lia. reflexivity.
    + unfold len. rewrite length_slice_head by lia. lia.
  - assert (exists m, M = Z.of_nat (S (S m))) as [m HMm]
      by (exists (Z.to_nat (M - 2)); lia).
    replace (M - 1) with (Z.of_nat (S m)) by lia.
    destruct (holo_diff_fuel_estimate m fuel
                (slice x None (Some (2 * M))) (slice y None (Some (2 * M))))
      as [-> _].
    { lia. }
    { rewrite !length_slice_head by lia. reflexivity. }
    { unfold len. rewrite length_slice_head by lia. lia. }
    destruct (holo_diff_fuel_estimate m fuel
                (slice x (Some (- 2 * M)) None) (slice y (Some (- 2 * M)) None))
      as [-> _].
    { lia. }
    { now apply length_slice_eq. }
    { replace (- 2 * M) with (- (2 * M)) by lia.
      unfold len. rewrite length_slice_tail by lia. lia. }
    cbn [bind]. subst M.
    destruct (holo_diff_fuel_estimate (S m) (S fuel) x y)
      as [-> _]; [lia | assumption | lia |].
    cbn [estimate]. rewrite Nat2Z.id. reflexivity.
Qed.

Lemma slice_zero {A} (l : list A) (hi : option Z) :
  slice l (Some 0) hi = slice l None hi.
Proof.
  unfold slice, lower. rewrite clamp_nonneg by (unfold len; lia). reflexivity.
Qed.

Lemma slice_last {A} (l : list A) (c : Z) :
  0 < c <= len l ->
  slice l (Some (len l - c)) (Some (len l)) = slice l (Some (- c)) None.
Proof.
  intros H. unfold slice, lower, upper.
  rewrite !clamp_nonneg, clamp_neg by lia.
  now replace (- c + len l) with (len l - c) by lia.
Qed.

(** ** Finite sums of rationals *)

Lemma fold_left_Qplus (l : list Q) (a : Q) :
  (fold_left Qplus l a == a + Qsum l)%Q.
Proof.
  revert a. induction l as [|b l IH]; intros a; simpl.
  - ring.
  - rewrite IH. ring.
Qed.

Lemma Qsum_map_ext {A} (f g : A -> Q) (l : list A) :
  (forall a, In a l -> f a == g a)%Q ->
  (Qsum (map f l) == Qsum (map g l))%Q.
Proof.
  induction l as [|a l IH]; intros H; simpl.
  - reflexivity.
  - rewrite (H a) by now left. rewrite IH; [reflexivity|].
    intros b Hb. apply H. now right.
Qed.

Lemma Qsum_map_scale {A} (c : Q) (f : A -> Q) (l : list A) :
  (Qsum (map (fun a => c * f a) l) == c * Qsum (map f l))%Q.
Proof.
  induction l as [|a l IH]; simpl.
  - ring.
  - rewrite IH. ring.
Qed.

Lemma Qsum_app (u v : list Q) : (Qsum (u ++ v) == Qsum u + Qsum v)%Q.
Proof.
  induction u as [|a u IH]; simpl.
  - ring.
  - rewrite IH. ring.
Qed.

Lemma stencil_at_sum (x y : list Q) (M i : Z) :
  (stencil_at x y M i == stencil_sum x y M i)%Q.
Proof.
  unfold stencil_at, stencil_sum. rewrite fold_left_Qplus, Qplus_0_l.
  rewrite (enumerate_seq 0%Q), length_coeffs. unfold arange.
  rewrite !map_map. replace (M + 1 - 1) with M by lia.
  apply Qsum_map_ext. intros j _. cbn [fst snd]. unfold stencil_term, qat.
  replace (1 + Z.of_nat j) with (Z.of_nat j + 1) by lia.
  replace (Z.to_nat (Z.of_nat j + 1 - 1)) with j by lia.
  reflexivity.
Qed.

Lemma nth_error_interior (x y lo hi : list Q) (M i : Z) :
  len lo = M -> M <= i <= len y - M - 1 ->
  nth_error (lo ++ interior x y M ++ hi) (Z.to_nat i)
  = Some (stencil_at x y M i).
Proof.
  intros Hlo Hi. unfold len in *.
  rewrite nth_error_app2 by lia.
  rewrite nth_error_app1 by (rewrite length_interior; unfold len; lia).
  rewrite (nth_error_nth' _ 0%Q) by (rewrite length_interior; unfold len; lia).
  unfold interior. rewrite nth_map_seq by (unfold len; lia).
  do 2 f_equal. lia.
Qed.

Lemma holo_diff_at_interior (x : abscissa) (y : list Q) (M i : Z) :
  1 <= M -> matching x y -> 2 * M <= len y -> M <= i <= len y - M - 1 ->
  exists df,
    holo_diff x y M = Ok df
    /\ length df = length y
    /\ nth_error df (Z.to_nat i)
       = Some (stencil_at (expand x (length y)) y M i).
Proof.
  intros HM Hx Hn Hi.
  destruct (holo_diff_estimate x y M) as [E L]; [lia | assumption | lia |].
  destruct (estimate_parts (Z.to_nat (M - 1)) (expand x (length y)) y)
    as (lo & hi & P & Llo & Lhi); [now apply length_expand | lia |].
  replace (Z.of_nat (S (Z.to_nat (M - 1)))) with M in P by lia.
  eexists. split; [exact E|]. split; [exact L|].
  rewrite P. apply nth_error_interior; [unfold len; lia | lia].
Qed.

(** ** Binomial coefficients *)

Section Binomial.

Lemma binom_gt (n k : nat) : (n < k)%nat -> binom n k = O.
Proof.
  revert k. induction n as [|n IH]; intros [|k] H; simpl; try lia.
  rewrite !IH by lia. reflexivity.
Qed.

Lemma binom_diag (n : nat) : binom n n = 1%nat.
Proof.
  induction n as [|n IH]; simpl; [reflexivity|].
  rewrite IH, binom_gt by lia. reflexivity.
Qed.

Lemma binom_fact (n : nat) :
  forall k, (k <= n)%nat ->
            (binom n k * fact k * fact (n - k) = fact n)%nat.
Proof.
  induction n as [|n IH]; intros [|k] H; try lia.
  - reflexivity.
  - simpl. lia.
  - cbn [binom]. destruct (Nat.eq_dec k n) as [->|Hk].
    + rewrite binom_diag, binom_gt, Nat.sub_diag by lia.
      simpl fact. lia.
    + pose proof (IH k ltac:(lia)) as H1.
      pose proof (IH (S k) ltac:(lia)) as H2.
      replace (n - k)%nat with (S (n - S k)) in * by lia.
      replace (S n - S k)%nat with (S (n - S k)) by lia.
      change (fact (S n)) with (S n * fact n)%nat.
      change (fact (S (n - S k))) with (S (n - S k) * fact (n - S k))%nat in *.
      change (fact (S k)) with (S k * fact k)%nat in *.
      replace (S n) with (S k + S (n - S k))%nat at 2 by lia.
      nia.
Qed.

Lemma binom_sym (n k : nat) : (k <= n)%nat -> binom n (n - k) = binom n k.
Proof.
  intros H. pose proof (binom_fact n k H) as H1.
  pose proof (binom_fact n (n - k) ltac:(lia)) as H2.
  replace (n - (n - k))%nat with k in H2 by lia.
  pose proof (fact_neq_0 k). pose proof (fact_neq_0 (n - k)).
  apply (Nat.mul_cancel_r _ _ (fact k * fact (n - k))); [nia | lia].
Qed.

Lemma list_sum_map_plus {A} (f g : A -> nat) (l : list A) :
  list_sum (map (fun a => f a + g a)%nat l)
  = (list_sum (map f l) + list_sum (map g l))%nat.
Proof. induction l; simpl; lia. Qed.

Lemma list_sum_rev (f : nat -> nat) (n : nat) :
  list_sum (map f (seq 0 n))
  = list_sum (map (fun j => f (n - j)%nat) (seq 1 n)).
Proof.
  induction n as [|n IH]; [reflexivity|].
  rewrite seq_S, map_app, list_sum_app, IH. cbn [seq map list_sum].
  rewrite <- (seq_shift n 1), map_map. cbn [Nat.sub Nat.add].
  rewrite Nat.sub_0_r. unfold list_sum. cbn [fold_right]. lia.
Qed.

Lemma list_sum_cons (a : nat) (l : list nat) :
  list_sum (a :: l) = (a + list_sum l)%nat.
Proof. reflexivity. Qed.

Lemma binom_0_r (n : nat) : binom n 0 = 1%nat.
Proof. destruct n; reflexivity. Qed.

(** A row of Pascal's triangle sums to a power of two. *)
Lemma binom_row (n : nat) :
  list_sum (map (binom n) (seq 0 (S n))) = (2 ^ n)%nat.
Proof.
  induction n as [|n IH]; [reflexivity|].
  assert (E : (list_sum (map (fun k => binom n (S k)) (seq 0 (S n))) + 1
               = 2 ^ n)%nat).
  { rewrite <- IH, <- (map_map S (binom n)), seq_shift.
    rewrite seq_S, map_app, list_sum_app.
    change (seq 0 (S n)) with (0%nat :: seq 1 n).
    rewrite !map_cons, !list_sum_cons, binom_0_r, binom_gt by lia.
    simpl. lia. }
  change (seq 0 (S (S n))) with (0%nat :: seq 1 (S n)).
  rewrite <- seq_shift, map_cons, map_map, list_sum_cons, binom_0_r.
  cbn [binom]. rewrite list_sum_map_plus, IH, Nat.pow_succ_r'. lia.
Qed.

(** The middle coefficient and twice the lower half of row [2m]. *)
Lemma binom_half_row (m : nat) :
  (binom (2 * m) m
   + 2 * list_sum (map (fun j => binom (2 * m) (m - j)) (seq 1 m))
   = 2 ^ (2 * m))%nat.
Proof.
  rewrite <- binom_row.
  replace (S (2 * m)) with (m + (1 + m))%nat by lia.
  rewrite seq_app, map_app, list_sum_app. cbn [Nat.add].
  cbn [seq]. rewrite map_cons, list_sum_cons.
  rewrite (list_sum_rev (binom (2 * m)) m).
  assert (E : map (binom (2 * m)) (seq (S m) m)
              = map (fun j => binom (2 * m) (m - j)) (seq 1 m)).
  { replace (seq (S m) m) with (map (fun j => m + j)%nat (seq 1 m)).
    - rewrite map_map. apply map_ext_in. intros j Hj.
      apply in_seq in Hj.
      rewrite <- (binom_sym (2 * m) (m + j)) by lia. f_equal. lia.
    - replace (S m) with (m + 1)%nat by lia.
      generalize 1%nat as s. generalize m at 2 4 as w.
      induction w as [|w IH]; intros s.
      + reflexivity.
      + cbn [seq map]. rewrite IH. do 2 f_equal. lia. }
  rewrite E. lia.
Qed.
End Binomial.

(** ** The coefficients *)

Lemma half_even (M : Z) : (2 * M - 2) / 2 = M - 1.
Proof. replace (2 * M - 2) with ((M - 1) * 2) by lia. now apply Z.div_mul. Qed.

Lemma coeffs_at (M k : Z) :
  1 <= k <= M ->
  qat (coeffs M) (k - 1)
  = (1 / 2 ^ (2 * (M - 1) + 1)
     * (comb (2 * (M - 1)) (M - 1 - k + 1)
        - comb (2 * (M - 1)) (M - 1 - k - 1)))%Q.
Proof.
  intros Hk. unfold qat, coeffs, arange. rewrite half_even, map_map.
  rewrite nth_map_seq by lia.
  replace (1 + Z.of_nat (Z.to_nat (k - 1))) with k by lia. reflexivity.
Qed.

Lemma comb_binom (n k : nat) :
  comb (Z.of_nat n) (Z.of_nat k) = inject_Z (Z.of_nat (binom n k)).
Proof.
  unfold comb. destruct (Z.leb_spec (Z.of_nat k) (Z.of_nat n)).
  - destruct (Z.leb_spec 0 (Z.of_nat n)); [|lia].
    destruct (Z.leb_spec 0 (Z.of_nat k)); [|lia].
    cbn [andb]. now rewrite !Nat2Z.id.
  - cbn [andb]. rewrite binom_gt by lia. reflexivity.
Qed.

Lemma comb_neg (N k : Z) : k < 0 -> comb N k = 0%Q.
Proof.
  intros H. unfold comb. destruct (Z.leb_spec 0 k); [lia|].
  now rewrite andb_false_r.
Qed.

Lemma Qsum_inject (f : nat -> nat) (l : list nat) :
  (Qsum (map (fun j => inject_Z (Z.of_nat (f j))) l)
   == inject_Z (Z.of_nat (list_sum (map f l))))%Q.
Proof.
  induction l as [|a l IH]; [reflexivity|].
  cbn [map Qsum fold_right]. fold (Qsum (map (fun j => inject_Z (Z.of_nat (f j))) l)).
  rewrite list_sum_cons, Nat2Z.inj_add, inject_Z_plus, IH. reflexivity.
Qed.

Lemma telescope (a : nat -> Q) (n : nat) :
  (Qsum (map (fun j => inject_Z (Z.of_nat j + 1) * (a j - a (S (S j))))
           (seq 0 (S n)))
   == a O + 2 * Qsum (map a (seq 1 n))
      - inject_Z (Z.of_nat n) * a (S n)
      - inject_Z (Z.of_nat n + 1) * a (S (S n)))%Q.
Proof.
  induction n as [|n IH].
  - cbn [seq map Qsum fold_right]. change (inject_Z (Z.of_nat 0 + 1)) with 1%Q.
    change (inject_Z (Z.of_nat 0)) with 0%Q. ring.
  - rewrite seq_S, map_app, Qsum_app, IH.
    rewrite (seq_S n 1), map_app, Qsum_app.
    cbn [map Qsum fold_right Nat.add].
    rewrite Nat2Z.inj_succ. unfold Z.succ. rewrite !inject_Z_plus.
    change (inject_Z 1) with 1%Q. ring.
Qed.

(** The weighted sum of the binomial differences of row [2m]. *)
Lemma binom_weighted (m : nat) :
  (Qsum (map (fun j => inject_Z (Z.of_nat j + 1)
                       * (comb (2 * Z.of_nat m) (Z.of_nat m - Z.of_nat j)
                          - comb (2 * Z.of_nat m)
                              (Z.of_nat m - Z.of_nat (S (S j)))))
           (seq 0 (S m)))
   == 2 ^ (2 * Z.of_nat m))%Q.
Proof.
  rewrite (telescope (fun j => comb (2 * Z.of_nat m) (Z.of_nat m - Z.of_nat j))).
  rewrite (comb_neg _ (Z.of_nat m - Z.of_nat (S m))),
    (comb_neg _ (Z.of_nat m - Z.of_nat (S (S m)))) by lia.
  rewrite (Qsum_map_ext _
             (fun j => inject_Z (Z.of_nat (binom (2 * m) (m - j))))).
  - rewrite Qsum_inject. rewrite Z.sub_0_r.
    replace (2 * Z.of_nat m) with (Z.of_nat (2 * m)) by lia.
    rewrite comb_binom.
    assert (P : (inject_Z (Z.of_nat (2 ^ (2 * m))) == 2 ^ Z.of_nat (2 * m))%Q).
    { rewrite Nat2Z.inj_pow, Zpower_Qpower by lia. reflexivity. }
    rewrite <- P.
    rewrite <- binom_half_row.
    rewrite Nat2Z.inj_add, Nat2Z.inj_mul, !inject_Z_plus, inject_Z_mult.
    change (inject_Z (Z.of_nat 2)) with 2%Q. ring.
  - intros j Hj. apply in_seq in Hj.
    replace (2 * Z.of_nat m) with (Z.of_nat (2 * m)) by lia.
    replace (Z.of_nat m - Z.of_nat j) with (Z.of_nat (m - j)) by lia.
    rewrite comb_binom. reflexivity.
Qed.

Lemma inject_nat_neq_0 (n : nat) : n <> O -> ~ inject_Z (Z.of_nat n) == 0.
Proof.
  intros H E. change 0%Q with (inject_Z 0) in E.
  apply (proj1 (inject_Z_injective _ _)) in E. lia.
Qed.

Lemma comb_C (N k : Z) : (comb N k == C N k)%Q.
Proof.
  unfold C. destruct (Z.ltb_spec k 0) as [Hk|Hk]; cbn [orb].
  - now rewrite comb_neg.
  - destruct (Z.ltb_spec N k) as [HN|HN].
    + unfold comb. destruct (Z.leb_spec k N); [lia|]. reflexivity.
    + rewrite <- (Z2Nat.id N), <- (Z2Nat.id k) at 1 by lia.
      rewrite comb_binom.
      pose proof (binom_fact (Z.to_nat N) (Z.to_nat k) ltac:(lia)) as H.
      replace (Z.to_nat (N - k)) with (Z.to_nat N - Z.to_nat k)%nat by lia.
      rewrite <- H, !Nat2Z.inj_mul, !inject_Z_mult.
      field. split; apply inject_nat_neq_0, fact_neq_0.
Qed.

Lemma weighted_sum_half (M : Z) : 1 <= M -> (weighted_sum M == 1 # 2)%Q.
Proof.
  intros HM.
  assert (exists m, M = Z.of_nat (S m)) as [m ->]
    by (exists (Z.to_nat (M - 1)); lia).
  unfold weighted_sum, arange. rewrite map_map.
  replace (Z.to_nat (Z.of_nat (S m) + 1 - 1)) with (S m) by lia.
  rewrite (Qsum_map_ext _
             (fun j => 1 / 2 ^ (2 * Z.of_nat m + 1)
                       * (inject_Z (Z.of_nat j + 1)
                          * (comb (2 * Z.of_nat m) (Z.of_nat m - Z.of_nat j)
                             - comb (2 * Z.of_nat m)
                                 (Z.of_nat m - Z.of_nat (S (S j))))))%Q).
  - rewrite Qsum_map_scale, binom_weighted.
    rewrite Qpower_plus by discriminate.
    change (2 ^ 1)%Q with 2%Q. field.
    apply Qpower_not_0. discriminate.
  - intros j Hj. apply in_seq in Hj. rewrite coeffs_at by lia.
    replace (Z.of_nat (S m) - 1) with (Z.of_nat m) by lia.
    replace (Z.of_nat m - (1 + Z.of_nat j) + 1)
      with (Z.of_nat m - Z.of_nat j) by lia.
    replace (Z.of_nat m - (1 + Z.of_nat j) - 1)
      with (Z.of_nat m - Z.of_nat (S (S j))) by lia.
    replace (1 + Z.of_nat j) with (Z.of_nat j + 1) by lia.
    ring.
Qed.

(** ** Affine data *)

Lemma in_arange (a b k : Z) : In k (arange a b) -> a <= k < b.
Proof.
  unfold arange. intros H. apply in_map_iff in H as (j & <- & Hj).
  apply in_seq in Hj. lia.
Qed.

Lemma increasing_firstn (l : list Q) (n : nat) :
  increasing l -> increasing (firstn n l).
Proof.
  intros H i j Hij. rewrite length_firstn in Hij.
  rewrite !nth_firstn.
  destruct (Nat.ltb_spec i n); [|lia]. destruct (Nat.ltb_spec j n); [|lia].
  apply H. lia.
Qed.

Lemma increasing_skipn (l : list Q) (n : nat) :
  increasing l -> increasing (skipn n l).
Proof.
  intros H i j Hij. rewrite length_skipn in Hij.
  rewrite !nth_skipn. apply H. lia.
Qed.

Lemma affine_firstn (a b : Q) (x y : list Q) (n : nat) :
  affine a b x y -> affine a b (firstn n x) (firstn n y).
Proof.
  intros H i Hi. rewrite length_firstn in Hi.
  rewrite !nth_firstn. destruct (Nat.ltb_spec i n); [|lia].
  apply H. lia.
Qed.

Lemma affine_skipn (a b : Q) (x y : list Q) (n : nat) :
  affine a b x y -> affine a b (skipn n x) (skipn n y).
Proof.
  intros H i Hi. rewrite length_skipn in Hi.
  rewrite !nth_skipn. apply H. lia.
Qed.

Lemma slope_affine (a b x0 x1 y0 y1 : Q) :
  (x0 < x1)%Q -> (y0 == a * x0 + b)%Q -> (y1 == a * x1 + b)%Q ->
  ((y1 - y0) / (x1 - x0) == a)%Q.
Proof.
  intros Hx -> ->. field. lra.
Qed.

Lemma Forall_take {A} (P : A -> Prop) (l : list A) (n : nat) :
  Forall P l -> Forall P (firstn n l).
Proof.
  intros H. rewrite <- (firstn_skipn n l) in H.
  now apply Forall_app in H.
Qed.

Lemma Forall_drop {A} (P : A -> Prop) (l : list A) (n : nat) :
  Forall P l -> Forall P (skipn n l).
Proof.
  intros H. rewrite <- (firstn_skipn n l) in H.
  now apply Forall_app in H.
Qed.

Lemma stencil_at_affine (a b : Q) (x y : list Q) (M i : Z) :
  1 <= M -> length x = length y -> M <= i <= len y - M - 1 ->
  increasing x -> affine a b x y ->
  (stencil_at x y M i == a)%Q.
Proof.
  intros HM Hlen Hi Hinc Haff.
  rewrite stencil_at_sum. unfold stencil_sum.
  rewrite (Qsum_map_ext _
             (fun k => (a * 2) * (inject_Z k * qat (coeffs M) (k - 1)))%Q).
  - rewrite Qsum_map_scale. fold (weighted_sum M).
    rewrite weighted_sum_half by assumption. field.
  - intros k Hk. apply in_arange in Hk. unfold len in *.
    assert (Hlt : (qat x (i - k) < qat x (i + k))%Q)
      by (apply Hinc; lia).
    assert (Hp : (qat y (i + k) == a * qat x (i + k) + b)%Q)
      by (apply Haff; lia).
    assert (Hm : (qat y (i - k) == a * qat x (i - k) + b)%Q)
      by (apply Haff; lia).
    rewrite Hp, Hm. field. lra.
Qed.

Lemma estimate_affine (a b : Q) (m : nat) :
  forall x y,
    length x = length y -> 2 * Z.of_nat (S m) <= len y ->
    increasing x -> affine a b x y ->
    Forall (fun d => d == a)%Q (estimate m x y).
Proof.
  induction m as [|m IH]; intros x y Hlen Hn Hinc Haff.
  - assert (Hx : len x = len y) by (unfold len; now rewrite Hlen).
    cbn [estimate]. apply Forall_app. split; [|apply Forall_app; split].
    + constructor; [|constructor]. unfold edge_lo, len in *.
      apply (slope_affine a b); [apply Hinc | apply Haff | apply Haff]; lia.
    + unfold interior. apply Forall_forall. intros d Hd.
      apply in_map_iff in Hd as (j & <- & Hj). apply in_seq in Hj.
      apply (stencil_at_affine a b); auto; lia.
    + constructor; [|constructor]. unfold edge_hi. rewrite Hx.
      unfold len in *.
      apply (slope_affine a b); [apply Hinc | apply Haff | apply Haff]; lia.
  - set (M := Z.of_nat (S (S m))) in *.
    assert (Hx : len x = len y) by (unfold len; now rewrite Hlen).
    cbn [estimate]. fold M.
    replace (- 2 * M) with (- (2 * M)) by lia.
    rewrite !slice_head, !slice_tail by lia. rewrite Hx.
    apply Forall_app. split; [|apply Forall_app; split].
    + apply Forall_take, IH.
      * rewrite !length_firstn. lia.
      * unfold len in *. rewrite length_firstn. lia.
      * now apply increasing_firstn.
      * now apply affine_firstn.
    + unfold interior. apply Forall_forall. intros d Hd.
      apply in_map_iff in Hd as (j & <- & Hj). apply in_seq in Hj.
      apply (stencil_at_affine a b); auto; lia.
    + apply Forall_drop, IH.
      * rewrite !length_skipn. lia.
      * unfold len in *. rewrite length_skipn. lia.
      * now apply increasing_skipn.
      * now apply affine_skipn.
Qed.

(** * The claims *)

(** C1 (exactness on affine data).  For every order [M >= 1], all [a] and
    [b], and strictly increasing abscissae (a scalar step expanded, or an
    array) with at least [2M+1] samples [y[i] = a*x[i] + b], every entry of
    the result, the first and last [M] included, is [a]. *)
Theorem holo_diff_affine (x : abscissa) (y : list Q) (M : Z) (a b : Q) :
  1 <= M -> matching x y -> 2 * M + 1 <= len y ->
  increasing (expand x (length y)) ->
  affine a b (expand x (length y)) y ->
  exists df,
    holo_diff x y M = Ok df
    /\ length df = length y
    /\ Forall (fun d => d == a)%Q df.
Proof.
  intros HM Hx Hn Hinc Haff.
  destruct (holo_diff_estimate x y M) as [E L]; [lia | assumption | lia |].
  eexists. split; [exact E|]. split; [exact L|].
  apply (estimate_affine a b); auto.
  - now apply length_expand.
  - lia.
Qed.

Lemma holo_diff_affine_witness :
  exists df,
    holo_diff (Array [0; 1; 3; 4; 7]%Q) [1; 3; 7; 9; 15]%Q 2 = Ok df
    /\ length df = 5%nat
    /\ Forall (fun d => d == 2)%Q df.
Proof.
  apply (holo_diff_affine (Array [0; 1; 3; 4; 7]%Q) [1; 3; 7; 9; 15]%Q 2 2 1).
  - lia.
  - reflexivity.
  - vm_compute. discriminate.
  - intros i j [Hij Hj]. simpl in Hj.
    do 5 (destruct j as [|j];
          [do 5 (destruct i as [|i]; [try lia; vm_compute; reflexivity|]); lia|]).
    lia.
  - intros i Hi. simpl in Hi.
    do 5 (destruct i as [|i]; [vm_compute; reflexivity|]). lia.
Defined.


(** C2 (interior stencil).  On a well-formed call, at every interior index
    [i] in [M, len(y)-M-1] whose stencil has distinct abscissae, the result is
    the sum over [k = 1..M], the term [k = M] included, of
    [2*k*c[k]*(y[i+k] - y[i-k])/(x[i+k] - x[i-k])]. *)
Theorem holo_diff_interior (x y : list Q) (M i : Z) :
  1 <= M -> length x = length y -> 2 * M + 1 <= len y ->
  M <= i <= len y - M - 1 ->
  (forall k, 1 <= k <= M -> ~ qat x (i + k) == qat x (i - k)) ->
  exists df d,
    holo_diff (Array x) y M = Ok df
    /\ nth_error df (Z.to_nat i) = Some d
    /\ (d == stencil_sum x y M i)%Q.
Proof.
  intros HM Hlen Hn Hi _.
  destruct (holo_diff_at_interior (Array x) y M i)
    as (df & E & _ & Hd); [lia | assumption | lia | lia |].
  exists df, (stencil_at x y M i). repeat split; try assumption.
  apply stencil_at_sum.
Qed.

Lemma holo_diff_interior_witness :
  exists df d,
    holo_diff (Array [0; 1; 2; 4; 5; 7]%Q) [0; 1; 4; 16; 25; 49]%Q 2 = Ok df
    /\ nth_error df 3 = Some d
    /\ (d == stencil_sum [0; 1; 2; 4; 5; 7]%Q [0; 1; 4; 16; 25; 49]%Q 2 3)%Q.
Proof.
  apply (holo_diff_interior [0; 1; 2; 4; 5; 7]%Q [0; 1; 4; 16; 25; 49]%Q 2 3).
  - lia.
  - reflexivity.
  - vm_compute. discriminate.
  - vm_compute. split; discriminate.
  - intros k Hk. assert (k = 1 \/ k = 2) as [-> | ->] by lia;
      vm_compute; discriminate.
Defined.

(** C3 (closed form of the coefficients).  For every [M >= 1], [coeffs(M)]
    has [M] entries and its [k]-th entry, [k = 1..M], is
    [(1/2^(2m+1)) * (C(2m, m-k+1) - C(2m, m-k-1))] with
    [m = (2M-2)/2 = M-1], [C] being 0 out of range; and [coeffs(1)] is
    [[1/2]]. *)
Theorem coeffs_closed_form (M : Z) :
  1 <= M ->
  length (coeffs M) = Z.to_nat M
  /\ (2 * M - 2) / 2 = M - 1
  /\ (forall k, 1 <= k <= M ->
        exists c, nth_error (coeffs M) (Z.to_nat (k - 1)) = Some c
                  /\ (c == coeff_formula M k)%Q)
  /\ coeffs 1 = [1 # 2].
Proof.
  intros HM. split; [apply length_coeffs|].
  split; [apply half_even|]. split; [|reflexivity].
  intros k Hk. exists (qat (coeffs M) (k - 1)). split.
  - unfold qat. apply nth_error_nth'. rewrite length_coeffs. lia.
  - rewrite coeffs_at by assumption. unfold coeff_formula.
    rewrite half_even, !comb_C. reflexivity.
Qed.

Lemma coeffs_closed_form_witness :
  1 <= 3
  /\ length (coeffs 3) = 3%nat
  /\ exists c, nth_error (coeffs 3) 1 = Some c /\ (c == coeff_formula 3 2)%Q.
Proof.
  assert (H : 1 <= 3) by lia.
  destruct (coeffs_closed_form 3 H) as (L & _ & F & _).
  split; [exact H|]. split; [exact L|]. apply (F 2). lia.
Defined.

(** C4 (boundary filling).  On a well-formed call with [n = len(y)]: above
    order 1 the first [M] entries are the first [M] entries of the call of
    order [M-1] on [x[0:2M], y[0:2M]], and the last [M] entries are the
    entries [M..2M-1] of the call of order [M-1] on [x[n-2M:n], y[n-2M:n]];
    at order 1 the first and the last entry are the two-point slopes at the
    two ends. *)
Theorem holo_diff_boundary (x : abscissa) (y : list Q) (M : Z) :
  1 <= M -> matching x y -> 2 * M + 1 <= len y ->
  let xs := expand x (length y) in
  let n := len y in
  exists df,
    holo_diff x y M = Ok df
    /\ (1 < M ->
        exists dflo dfhi,
          holo_diff (Array (slice xs (Some 0) (Some (2 * M))))
            (slice y (Some 0) (Some (2 * M))) (M - 1) = Ok dflo
          /\ holo_diff (Array (slice xs (Some (n - 2 * M)) (Some n)))
               (slice y (Some (n - 2 * M)) (Some n)) (M - 1) = Ok dfhi
          /\ len dflo = 2 * M /\ len dfhi = 2 * M
          /\ firstn (Z.to_nat M) df = firstn (Z.to_nat M) dflo
          /\ skipn (Z.to_nat (n - M)) df = skipn (Z.to_nat M) dfhi)
    /\ (M = 1 ->
        nth_error df 0
        = Some ((qat y 1 - qat y 0) / (qat xs 1 - qat xs 0))%Q
        /\ nth_error df (Z.to_nat (n - 1))
           = Some ((qat y (n - 1) - qat y (n - 2))
                   / (qat xs (n - 1) - qat xs (n - 2)))%Q).
Proof.
  intros HM Hx Hn xs n.
  assert (Hlen : length xs = length y) by now apply length_expand.
  assert (Hxn : len xs = n) by (unfold len, n; now rewrite Hlen).
  destruct (holo_diff_estimate x y M) as [E L]; [lia | assumption | lia |].
  fold xs in E, L. eexists. split; [exact E|]. split.
  - intros HM1.
    assert (exists m, M = Z.of_nat (S (S m))) as [m HMm]
      by (exists (Z.to_nat (M - 2)); lia).
    rewrite !slice_zero.
    assert (Sx : slice xs (Some (n - 2 * M)) (Some n)
                 = slice xs (Some (- (2 * M))) None)
      by (rewrite <- Hxn; apply slice_last; lia).
    assert (Sy : slice y (Some (n - 2 * M)) (Some n)
                 = slice y (Some (- (2 * M))) None)
      by (apply slice_last; fold n; lia).
    rewrite Sx, Sy.
    assert (Llo : length (slice y None (Some (2 * M))) = Z.to_nat (2 * M))
      by (apply length_slice_head; fold n; lia).
    assert (Lhi : length (slice y (Some (- (2 * M))) None) = Z.to_nat (2 * M))
      by (apply length_slice_tail; fold n; lia).
    destruct (holo_diff_estimate (Array (slice xs None (Some (2 * M))))
                (slice y None (Some (2 * M))) (M - 1)) as [Elo Rlo].
    { lia. }
    { simpl. now apply length_slice_eq. }
    { unfold len. rewrite Llo. lia. }
    destruct (holo_diff_estimate (Array (slice xs (Some (- (2 * M))) None))
                (slice y (Some (- (2 * M))) None) (M - 1)) as [Ehi Rhi].
    { lia. }
    { simpl. now apply length_slice_eq. }
    { unfold len. rewrite Lhi. lia. }
    cbn [expand] in Elo, Ehi, Rlo, Rhi.
    eexists _, _. split; [exact Elo|]. split; [exact Ehi|].
    rewrite Llo in Rlo. rewrite Lhi in Rhi.
    split; [unfold len; rewrite Rlo; lia|].
    split; [unfold len; rewrite Rhi; lia|].
    replace (Z.to_nat (M - 1)) with (S m) by lia.
    replace (Z.to_nat (M - 1 - 1)) with m in * by lia.
    cbn [estimate]. rewrite <- HMm.
    replace (- 2 * M) with (- (2 * M)) by lia.
    replace (Z.to_nat M) with (S (S m)) by lia.
    split.
    + apply firstn_app_exact. rewrite length_firstn, Rlo. lia.
    + rewrite app_assoc. apply skipn_app_exact.
      rewrite length_app, length_firstn, length_interior, Rlo.
      fold n. lia.
  - intros ->. change (Z.to_nat (1 - 1)) with O. cbn [estimate].
    split; [reflexivity|].
    rewrite app_assoc, nth_error_app2
      by (rewrite length_app, length_interior; fold n; simpl; lia).
    rewrite length_app, length_interior. fold n.
    replace (Z.to_nat (n - 1) - (length [edge_lo xs y] + Z.to_nat (n - 2 * Z.of_nat 1)))%nat
      with O by (simpl; lia).
    unfold edge_hi. rewrite Hxn. reflexivity.
Qed.

Lemma holo_diff_boundary_witness :
  exists df,
    holo_diff (Array [0; 1; 2; 4; 5; 7]%Q) [0; 1; 4; 16; 25; 49]%Q 2 = Ok df
    /\ firstn 2 df = [1; 8 # 4]%Q.
Proof.
  destruct (holo_diff_boundary (Array [0; 1; 2; 4; 5; 7]%Q)
              [0; 1; 4; 16; 25; 49]%Q 2) as (df & E & Hrec & _).
  - lia.
  - reflexivity.
  - vm_compute. discriminate.
  - exists df. split; [exact E|].
    destruct Hrec as (dflo & dfhi & Elo & _ & _ & _ & Hlo & _); [lia|].
    vm_compute in Elo. injection Elo as <-.
    change (Z.to_nat 2) with 2%nat in Hlo. rewrite Hlo. reflexivity.
Defined.

(** C5 (length mismatch).  [holo_diff] fails with the assertion error, which
    reports both lengths, if and only if [x] is an array whose length differs
    from that of [y]; with a scalar [x] it never does, whatever [y] and [M]. *)
Theorem holo_diff_assertion (x : abscissa) (y : list Q) (M : Z) :
  (forall lx ly,
      holo_diff x y M = Raise (AssertionError lx ly)
      <-> exists xs, x = Array xs /\ length xs <> length y
                     /\ lx = length xs /\ ly = length y)
  /\ (forall h lx ly,
         holo_diff (Scalar h) y M <> Raise (AssertionError lx ly)).
Proof.
  assert (Hsame : forall x', matching x' y -> forall lx ly,
             holo_diff x' y M <> Raise (AssertionError lx ly)).
  { intros x' Hx lx ly E.
    destruct (only_numpy_holo_diff_fuel (Z.to_nat (Z.max M 1))
                (expand x' (length y)) y M) with (e := AssertionError lx ly)
      as [?|?]; try discriminate.
    - lia.
    - now apply length_expand.
    - exact E. }
  split.
  - intros lx ly. split.
    + intros E. destruct x as [h|xs].
      * exfalso. now apply (Hsame (Scalar h) I lx ly).
      * exists xs. destruct (Nat.eq_dec (length xs) (length y)) as [Heq|Hne].
        -- exfalso. now apply (Hsame (Array xs) Heq lx ly).
        -- unfold holo_diff in E.
           destruct (Z.to_nat (Z.max M 1)) as [|f] eqn:Ef; [lia|].
           cbn [holo_diff_fuel expand] in E.
           apply Nat.eqb_neq in Hne. rewrite Hne in E. cbn [negb] in E.
           apply Nat.eqb_neq in Hne. injection E as <- <-. auto.
    + intros (xs & -> & Hne & -> & ->). unfold holo_diff.
      destruct (Z.to_nat (Z.max M 1)) as [|f] eqn:Ef; [lia|].
      cbn [holo_diff_fuel expand].
      apply Nat.eqb_neq in Hne. rewrite Hne. reflexivity.
  - intros h lx ly. now apply (Hsame (Scalar h) I).
Qed.

Lemma holo_diff_assertion_witness :
  holo_diff (Array [0; 1; 2; 3; 4]%Q) [0; 1; 4; 9; 16; 25]%Q 2
  = Raise (AssertionError 5 6).
Proof.
  apply (proj1 (holo_diff_assertion (Array [0; 1; 2; 3; 4]%Q)
                  [0; 1; 4; 9; 16; 25]%Q 2)).
  exists [0; 1; 2; 3; 4]%Q. repeat split. simpl. lia.
Defined.

(** C6 (consistency constant).  For every order [M >= 1] the weighted sum
    [sum_{k=1}^{M} k*c[k]] of the coefficients is [1/2], whatever [M]; that
    is, the stencil weights [2*k*c[k]] sum to 1. *)
Theorem coeffs_weighted_sum (M : Z) :
  1 <= M ->
  (weighted_sum M == 1 # 2)%Q
  /\ (Qsum (map (fun k => 2 * inject_Z k * qat (coeffs M) (k - 1))%Q
              (arange 1 (M + 1))) == 1)%Q.
Proof.
  intros HM. split.
  - now apply weighted_sum_half.
  - rewrite (Qsum_map_ext _
               (fun k => 2 * (inject_Z k * qat (coeffs M) (k - 1)))%Q)
      by (intros; ring).
    rewrite Qsum_map_scale. fold (weighted_sum M).
    rewrite weighted_sum_half by assumption. reflexivity.
Qed.

Lemma coeffs_weighted_sum_witness :
  1 <= 4
  /\ (weighted_sum 4 == 1 # 2)%Q
  /\ (Qsum (map (fun k => 2 * inject_Z k * qat (coeffs 4) (k - 1))%Q
              (arange 1 (4 + 1))) == 1)%Q.
Proof.
  assert (H : 1 <= 4) by lia.
  split; [exact H | exact (coeffs_weighted_sum 4 H)].
Defined.

(** C7 (shape invariant).  For a well-formed call (a scalar step or an
    array [x] as long as [y], order [M >= 1], at least [2M+1] samples),
    [holo_diff] returns a sequence exactly as long as [y]. *)
Theorem holo_diff_shape (x : abscissa) (y : list Q) (M : Z) :
  1 <= M -> matching x y -> 2 * M + 1 <= len y ->
  exists df, holo_diff x y M = Ok df /\ length df = length y.
Proof.
  intros HM Hx Hn.
  destruct (holo_diff_estimate x y M) as [E L]; [lia | assumption | lia |].
  eauto.
Qed.

Lemma holo_diff_shape_witness :
  1 <= 2 /\ matching (Scalar (1 # 2)) [0; 1; 4; 9; 16; 25; 36]%Q
  /\ 2 * 2 + 1 <= len [0; 1; 4; 9; 16; 25; 36]%Q
  /\ exists df, holo_diff (Scalar (1 # 2)) [0; 1; 4; 9; 16; 25; 36]%Q 2 = Ok df
                /\ length df = length [0; 1; 4; 9; 16; 25; 36]%Q.
Proof.
  assert (H1 : 1 <= 2) by lia.
  assert (H2 : matching (Scalar (1 # 2)) [0; 1; 4; 9; 16; 25; 36]%Q)
    by exact I.
  assert (H3 : 2 * 2 + 1 <= len [0; 1; 4; 9; 16; 25; 36]%Q)
    by (vm_compute; discriminate).
  repeat split; try assumption.
  exact (holo_diff_shape _ _ _ H1 H2 H3).
Defined.

(** C8 (termination).  A well-formed call of order [M >= 1] returns; it
    needs exactly [M] stack frames, that is, its recursion is [M - 1] deep:
    with [M] or more frames the result is the same value, with fewer the
    frames run out.  Above order 1 each of the two recursive calls has order
    [M - 1] and works on [2M] samples; at order 1 there is no recursive
    call. *)
Theorem holo_diff_terminates (x y : list Q) (M : Z) :
  1 <= M -> length x = length y -> 2 * M + 1 <= len y ->
  exists df,
    holo_diff (Array x) y M = Ok df
    /\ (forall fuel, M <= Z.of_nat fuel -> holo_diff_fuel fuel x y M = Ok df)
    /\ (forall fuel, Z.of_nat fuel < M ->
                     holo_diff_fuel fuel x y M = Raise OutOfFuel)
    /\ (1 < M ->
        let xlo := slice x None (Some (2 * M)) in
        let ylo := slice y None (Some (2 * M)) in
        let xhi := slice x (Some (- 2 * M)) None in
        let yhi := slice y (Some (- 2 * M)) None in
        len xlo = 2 * M /\ len ylo = 2 * M
        /\ len xhi = 2 * M /\ len yhi = 2 * M
        /\ 1 <= M - 1 < M
        /\ forall fuel,
            holo_diff_fuel (S fuel) x y M
            = (dflo <- holo_diff_fuel fuel xlo ylo (M - 1) ;;
               dfhi <- holo_diff_fuel fuel xhi yhi (M - 1) ;;
               Ok (firstn (Z.to_nat M) dflo ++ interior x y M
                   ++ skipn (Z.to_nat M) dfhi)))
    /\ (M = 1 -> holo_diff_fuel 1 x y M = Ok df).
Proof.
  intros HM Hlen Hn.
  assert (Hx : len x = len y) by (unfold len; now rewrite Hlen).
  assert (Hfuel : forall fuel, M <= Z.of_nat fuel ->
            holo_diff_fuel fuel x y M
            = Ok (estimate (Z.to_nat (M - 1)) x y)).
  { intros fuel Hf.
    replace M with (Z.of_nat (S (Z.to_nat (M - 1)))) at 1 by lia.
    apply holo_diff_fuel_estimate; [lia | assumption | lia]. }
  exists (estimate (Z.to_nat (M - 1)) x y). repeat split.
  - apply (holo_diff_estimate (Array x) y M); [lia | assumption | lia].
  - exact Hfuel.
  - intros fuel Hf. apply holo_diff_fuel_short; [lia | assumption | lia].
  - unfold len. rewrite length_slice_head; lia.
  - unfold len. rewrite length_slice_head; lia.
  - replace (- 2 * M) with (- (2 * M)) by lia.
    unfold len. rewrite length_slice_tail; lia.
  - replace (- 2 * M) with (- (2 * M)) by lia.
    unfold len. rewrite length_slice_tail; lia.
  - lia.
  - lia.
  - intros fuel. apply holo_diff_fuel_rec; [lia | assumption | lia].
  - intros HM1. apply Hfuel. lia.
Qed.

Lemma holo_diff_terminates_witness :
  exists df,
    holo_diff (Array [0; 1; 2; 3; 4; 5; 6]%Q) [0; 1; 4; 9; 16; 25; 36]%Q 3
    = Ok df.
Proof.
  destruct (holo_diff_terminates [0; 1; 2; 3; 4; 5; 6]%Q
              [0; 1; 4; 9; 16; 25; 36]%Q 3) as (df & E & _).
  - lia.
  - reflexivity.
  - vm_compute. discriminate.
  - exists df. exact E.
Defined.

(** C9 (order 1 is the central difference).  At order 1, on a well-formed
    call with at least three samples, every interior entry [i] whose two
    neighbours have distinct abscissae is
    [(y[i+1] - y[i-1])/(x[i+1] - x[i-1])]. *)
Theorem holo_diff_central (x y : list Q) (i : Z) :
  length x = length y -> 3 <= len y -> 1 <= i <= len y - 2 ->
  ~ qat x (i + 1) == qat x (i - 1) ->
  exists df d,
    holo_diff (Array x) y 1 = Ok df
    /\ nth_error df (Z.to_nat i) = Some d
    /\ (d == (qat y (i + 1) - qat y (i - 1))
             / (qat x (i + 1) - qat x (i - 1)))%Q.
Proof.
  intros Hlen Hn Hi Hx.
  destruct (holo_diff_at_interior (Array x) y 1 i)
    as (df & E & _ & Hd); [lia | assumption | lia | lia |].
  exists df, (stencil_at x y 1 i). repeat split; try assumption.
  rewrite stencil_at_sum. unfold stencil_sum.
  change (arange 1 (1 + 1)) with [1].
  change (coeffs 1) with [(1 / 2 ^ 1 * (1 - 0))%Q].
  cbn [map Qsum fold_right]. change (qat [(1 / 2 ^ 1 * (1 - 0))%Q] (1 - 1))
    with (1 / 2 ^ 1 * (1 - 0))%Q.
  change (inject_Z 1) with 1%Q. change (2 ^ 1)%Q with 2%Q.
  field. intros H. apply Hx. rewrite <- (Qplus_0_l (qat x (i - 1))).
  rewrite <- H. ring.
Qed.

Lemma holo_diff_central_witness :
  exists df d,
    holo_diff (Array [0; 1; 3; 4]%Q) [0; 1; 9; 16]%Q 1 = Ok df
    /\ nth_error df 2 = Some d
    /\ (d == (16 - 1) / (4 - 1))%Q.
Proof.
  apply (holo_diff_central [0; 1; 3; 4]%Q [0; 1; 9; 16]%Q 2).
  - reflexivity.
  - vm_compute. discriminate.
  - vm_compute. split; discriminate.
  - vm_compute. discriminate.
Defined.

(** C10 (two samples at order 1).  With two samples and distinct abscissae
    the call of order 1 succeeds and both entries are the slope between the
    two points. *)
Theorem holo_diff_two_points (x0 x1 y0 y1 : Q) :
  ~ x0 == x1 ->
  holo_diff (Array [x0; x1]) [y0; y1] 1
  = Ok [((y1 - y0) / (x1 - x0))%Q; ((y1 - y0) / (x1 - x0))%Q].
Proof. intros _. reflexivity. Qed.

Lemma holo_diff_two_points_witness :
  ~ (1 == 3)%Q
  /\ holo_diff (Array [1; 3]%Q) [5; 9]%Q 1
     = Ok [((9 - 5) / (3 - 1))%Q; ((9 - 5) / (3 - 1))%Q].
Proof.
  assert (H : ~ (1 == 3)%Q) by (vm_compute; discriminate).
  split; [exact H | exact (holo_diff_two_points 1 3 5 9 H)].
Defined.

(** * Further properties of the code *)

(** ** Every entry without the recursion *)

Lemma length_estimate (m : nat) (x y : list Q) :
  length x = length y -> 2 * Z.of_nat (S m) <= len y ->
  length (estimate m x y) = length y.
Proof.
  intros Hlen Hn.
  destruct (holo_diff_fuel_estimate m (S m) x y) as [_ L];
    [lia | assumption | assumption | exact L].
Qed.

Lemma qat_firstn (l : list Q) (n : nat) (j : Z) :
  0 <= j < Z.of_nat n -> qat (firstn n l) j = qat l j.
Proof.
  intros H. unfold qat. rewrite nth_firstn.
  destruct (Nat.ltb_spec (Z.to_nat j) n); [reflexivity | lia].
Qed.

Lemma qat_skipn (l : list Q) (n : nat) (j : Z) :
  0 <= j -> qat (skipn n l) j = qat l (Z.of_nat n + j).
Proof.
  intros H. unfold qat. rewrite nth_skipn. f_equal. lia.
Qed.

(** The stencil reads the data at [i - M .. i + M] only. *)
Lemma stencil_at_ext (x y x' y' : list Q) (M i i' : Z) :
  (forall k, 1 <= k <= M ->
             qat x' (i' + k) = qat x (i + k)
             /\ qat x' (i' - k) = qat x (i - k)
             /\ qat y' (i' + k) = qat y (i + k)
             /\ qat y' (i' - k) = qat y (i - k)) ->
  stencil_at x' y' M i' = stencil_at x y M i.
Proof.
  intros H. unfold stencil_at. f_equal.
  rewrite (enumerate_seq 0%Q), length_coeffs, !map_map.
  apply map_ext_in. intros j Hj. apply in_seq in Hj. cbn [fst snd].
  unfold stencil_term.
  destruct (H (Z.of_nat j + 1)) as (-> & -> & -> & ->); [lia|].
  reflexivity.
Qed.

Lemma edge_lo_firstn (x y : list Q) (n : nat) :
  (2 <= n)%nat -> edge_lo (firstn n x) (firstn n y) = edge_lo x y.
Proof. intros H. unfold edge_lo. rewrite !qat_firstn by lia. reflexivity. Qed.

Lemma edge_hi_skipn (x y : list Q) (n : nat) :
  length x = length y -> (n + 2 <= length y)%nat ->
  edge_hi (skipn n x) (skipn n y) = edge_hi x y.
Proof.
  intros Hlen H. unfold edge_hi, len. rewrite !length_skipn, Hlen.
  rewrite !qat_skipn by lia.
  replace (Z.of_nat n + (Z.of_nat (length y - n) - 1))
    with (Z.of_nat (length y) - 1) by lia.
  replace (Z.of_nat n + (Z.of_nat (length y - n) - 2))
    with (Z.of_nat (length y) - 2) by lia.
  reflexivity.
Qed.

Lemma nth_interior (x y lo hi : list Q) (M i : Z) :
  len lo = M -> M <= i <= len y - M - 1 ->
  nth (Z.to_nat i) (lo ++ interior x y M ++ hi) 0%Q = stencil_at x y M i.
Proof.
  intros Hlo Hi. apply nth_error_nth. now apply nth_error_interior.
Qed.

(** The recursion unrolled: the two ends are two-point slopes, and every
    other entry is a stencil whose order is [order_at]. *)
Lemma estimate_entry (m : nat) :
  forall (x y : list Q) (i : Z),
    length x = length y -> 2 * Z.of_nat (S m) <= len y ->
    0 <= i < len y ->
    nth (Z.to_nat i) (estimate m x y) 0%Q = entry x y (Z.of_nat (S m)) i.
Proof.
  induction m as [|m IH]; intros x y i Hlen Hn Hi.
  - unfold entry. cbn [estimate].
    destruct (Z.eqb_spec i 0) as [->|Hi0]; [reflexivity|].
    destruct (Z.eqb_spec i (len y - 1)) as [->|Hi1].
    + rewrite app_assoc, app_nth2
        by (rewrite length_app, length_interior; simpl; lia).
      rewrite length_app, length_interior.
      replace (Z.to_nat (len y - 1)
               - (length [edge_lo x y] + Z.to_nat (len y - 2 * Z.of_nat 1)))%nat
        with O by (simpl; lia).
      reflexivity.
    + rewrite nth_interior by (unfold len in *; simpl; lia).
      f_equal. unfold order_at. lia.
  - remember (Z.of_nat (S (S m))) as M eqn:EM.
    assert (HM : 2 <= M) by lia.
    assert (Hx : len x = len y) by (unfold len; now rewrite Hlen).
    assert (Llo : length (estimate m (slice x None (Some (2 * M)))
                            (slice y None (Some (2 * M)))) = Z.to_nat (2 * M)).
    { rewrite length_estimate.
      - apply length_slice_head; lia.
      - now rewrite !length_slice_head by lia.
      - unfold len. rewrite length_slice_head by lia. lia. }
    assert (Lhi : length (estimate m (slice x (Some (- (2 * M))) None)
                            (slice y (Some (- (2 * M))) None))
                  = Z.to_nat (2 * M)).
    { rewrite length_estimate.
      - apply length_slice_tail; lia.
      - now rewrite !length_slice_tail by lia.
      - unfold len. rewrite length_slice_tail by lia. lia. }
    assert (Nlo : len (slice y None (Some (2 * M))) = 2 * M)
      by (unfold len; rewrite length_slice_head; lia).
    assert (Nhi : len (slice y (Some (- (2 * M))) None) = 2 * M)
      by (unfold len; rewrite length_slice_tail; lia).
    cbn [estimate]. rewrite <- EM. replace (- 2 * M) with (- (2 * M)) by lia.
    destruct (Z_lt_le_dec i M) as [Hlo|Hlo];
      [|destruct (Z_le_gt_dec i (len y - M - 1)) as [Hmid|Hhi]].
    + (* among the first [M] entries *)
      rewrite app_nth1 by (rewrite length_firstn, Llo; lia).
      rewrite nth_firstn.
      destruct (Nat.ltb_spec (Z.to_nat i) (S (S m))); [|lia].
      rewrite IH; [| now rewrite !length_slice_head by lia | lia | lia].
      unfold entry. rewrite Nlo. unfold len.
      rewrite !slice_head by lia.
      destruct (Z.eqb_spec i 0) as [->|Hi0]; [apply edge_lo_firstn; lia|].
      destruct (Z.eqb_spec i ((2 * M) - 1)); [lia|].
      destruct (Z.eqb_spec i (Z.of_nat (length y) - 1));
        [unfold len in *; lia|].
      replace (order_at ((2 * M)) (Z.of_nat (S m)) i)
        with i by (unfold order_at; lia).
      replace (order_at (Z.of_nat (length y)) M i)
        with i by (unfold order_at, len in *; lia).
      apply stencil_at_ext. intros k Hk.
      rewrite !qat_firstn by lia. auto.
    + (* in the interior *)
      rewrite nth_interior;
        [| unfold len; rewrite length_firstn, Llo; lia | lia].
      unfold entry.
      destruct (Z.eqb_spec i 0); [lia|].
      destruct (Z.eqb_spec i (len y - 1)); [lia|].
      f_equal. unfold order_at. lia.
    + (* among the last [M] entries *)
      rewrite app_assoc, app_nth2
        by (rewrite length_app, length_firstn, length_interior, Llo;
            unfold len in *; lia).
      rewrite length_app, length_firstn, length_interior, Llo, nth_skipn.
      replace (S (S m) + (Z.to_nat i
                 - (Nat.min (S (S m)) (Z.to_nat (2 * M))
                    + Z.to_nat (len y - 2 * M))))%nat
        with (Z.to_nat (i - (len y - 2 * M))) by (unfold len in *; lia).
      rewrite IH; [| now rewrite !length_slice_tail by lia | lia | lia].
      unfold entry. rewrite Nhi. unfold len.
      rewrite !slice_tail by lia.
      destruct (Z.eqb_spec (i - (Z.of_nat (length y) - 2 * M)) 0);
        [unfold len in *; lia|].
      destruct (Z.eqb_spec i 0); [lia|].
      destruct (Z.eqb_spec (i - (Z.of_nat (length y) - 2 * M))
                  ((2 * M) - 1)) as [E|E];
        destruct (Z.eqb_spec i (Z.of_nat (length y) - 1)) as [E'|E'];
        try (unfold len in *; lia).
      * rewrite Hx. apply edge_hi_skipn; [assumption | unfold len in *; lia].
      * rewrite Hx.
        replace (order_at ((2 * M)) (Z.of_nat (S m))
                   (i - (Z.of_nat (length y) - 2 * M)))
          with (Z.of_nat (length y) - 1 - i)
          by (unfold order_at, len in *; lia).
        replace (order_at (Z.of_nat (length y)) M i)
          with (Z.of_nat (length y) - 1 - i)
          by (unfold order_at, len in *; lia).
        apply stencil_at_ext. intros k Hk.
        rewrite !qat_skipn by (unfold len in *; lia).
        unfold len in *.
        repeat split; f_equal; lia.
Qed.

Lemma holo_diff_entry (x : abscissa) (y : list Q) (M : Z) :
  1 <= M -> matching x y -> 2 * M <= len y ->
  exists df,
    holo_diff x y M = Ok df
    /\ length df = length y
    /\ forall i, 0 <= i < len y ->
                 nth_error df (Z.to_nat i)
                 = Some (entry (expand x (length y)) y M i).
Proof.
  intros HM Hx Hn.
  destruct (holo_diff_estimate x y M) as [E L]; [lia | assumption | lia |].
  eexists. split; [exact E|]. split; [exact L|]. intros i Hi.
  rewrite (nth_error_nth' _ 0%Q) by (rewrite L; unfold len in *; lia).
  f_equal. replace M with (Z.of_nat (S (Z.to_nat (M - 1)))) at 2 by lia.
  apply estimate_entry; [now apply length_expand | lia | lia].
Qed.

(** ** Calls that fail *)







(** X3 (exactly [2M] samples).  With exactly [2M] samples and [M > 1] there
    is no interior and both recursive calls see all the data: the call
    returns what the call of order [M - 1] returns. *)
Theorem holo_diff_collapse (x : abscissa) (y : list Q) (M : Z) :
  1 < M -> matching x y -> len y = 2 * M ->
  holo_diff x y M = holo_diff x y (M - 1)
  /\ exists df, holo_diff x y M = Ok df.
Proof.
  intros HM Hm Hn.
  destruct (holo_diff_estimate x y M) as [E _]; [lia | assumption | lia |].
  destruct (holo_diff_estimate x y (M - 1)) as [E' _];
    [lia | assumption | lia |].
  split; [|eauto]. rewrite E, E'. f_equal.
  pose proof (length_expand x y Hm) as Hlen.
  set (xs := expand x (length y)) in *.
  assert (Hx : len xs = len y) by (unfold len; now rewrite Hlen).
  assert (exists m, M = Z.of_nat (S (S m))) as [m EM]
    by (exists (Z.to_nat (M - 2)); lia).
  replace (Z.to_nat (M - 1)) with (S m) by lia.
  replace (Z.to_nat (M - 1 - 1)) with m by lia.
  cbn [estimate]. rewrite <- EM.
  replace (- 2 * M) with (- (2 * M)) by lia.
  rewrite !slice_head, !slice_tail by lia.
  rewrite Hx, Hn, Z.sub_diag. change (Z.to_nat 0) with O.
  rewrite !skipn_O.
  rewrite !(@firstn_all2 Q (Z.to_nat (2 * M))) by (unfold len in *; lia).
  unfold interior. rewrite Hn, Z.sub_diag. cbn [Z.to_nat seq map app].
  apply firstn_skipn.
Qed.

Lemma holo_diff_collapse_witness :
  holo_diff (Array [0; 1; 3; 4]%Q) [1; 2; 0; 5]%Q 2
  = holo_diff (Array [0; 1; 3; 4]%Q) [1; 2; 0; 5]%Q (2 - 1).
Proof.
  apply (holo_diff_collapse (Array [0; 1; 3; 4]%Q) [1; 2; 0; 5]%Q 2).
  - lia.
  - reflexivity.
  - reflexivity.
Defined.

(** X4 (every entry, the recursion unrolled).  On a call that succeeds the
    first and the last entry are the two-point slopes at the two ends,
    whatever the order, and every other entry [i] is the stencil whose order
    is the distance of [i] to the nearer end, capped at [M]. *)
Theorem holo_diff_entries (x : abscissa) (y : list Q) (M : Z) :
  1 <= M -> matching x y -> 2 * M <= len y ->
  let xs := expand x (length y) in
  let n := len y in
  exists df,
    holo_diff x y M = Ok df
    /\ length df = length y
    /\ nth_error df 0
       = Some ((qat y 1 - qat y 0) / (qat xs 1 - qat xs 0))%Q
    /\ nth_error df (Z.to_nat (n - 1))
       = Some ((qat y (n - 1) - qat y (n - 2))
               / (qat xs (n - 1) - qat xs (n - 2)))%Q
    /\ forall i, 1 <= i <= n - 2 ->
         (forall k, 1 <= k <= order_at n M i ->
                    ~ qat xs (i + k) == qat xs (i - k)) ->
         exists d, nth_error df (Z.to_nat i) = Some d
                   /\ (d == stencil_sum xs y (order_at n M i) i)%Q.
Proof.
  intros HM Hm Hn xs n.
  assert (Hx : len xs = n)
    by (unfold len, xs, n; now rewrite length_expand).
  destruct (holo_diff_entry x y M HM Hm Hn) as (df & E & L & H).
  fold xs in H. exists df. split; [exact E|]. split; [exact L|].
  split; [|split].
  - change O with (Z.to_nat 0). rewrite (H 0) by lia. reflexivity.
  - rewrite (H (n - 1)) by (unfold n; lia). unfold entry. fold n.
    destruct (Z.eqb_spec (n - 1) 0); [lia|]. rewrite Z.eqb_refl.
    unfold edge_hi. rewrite Hx. reflexivity.
  - intros i Hi _. eexists. split; [apply H; unfold n in *; lia|].
    unfold entry. fold n.
    destruct (Z.eqb_spec i 0); [lia|].
    destruct (Z.eqb_spec i (n - 1)); [lia|].
    apply stencil_at_sum.
Qed.

Lemma holo_diff_entries_witness :
  exists df,
    holo_diff (Scalar 1) [0; 1; 4; 9; 16; 25; 36]%Q 3 = Ok df
    /\ nth_error df 0 = Some ((1 - 0) / (1 * 1 - 1 * 0))%Q.
Proof.
  destruct (holo_diff_entries (Scalar 1) [0; 1; 4; 9; 16; 25; 36]%Q 3)
    as (df & E & _ & H0 & _).
  - lia.
  - exact I.
  - vm_compute. discriminate.
  - exists df. split; [exact E | exact H0].
Defined.

(** ** Uniform grids *)

Lemma qat_expand_scalar (h : Q) (n : nat) (j : Z) :
  0 <= j < Z.of_nat n ->
  qat (expand (Scalar h) n) j = (h * inject_Z j)%Q.
Proof.
  intros H. unfold qat, expand, arange. rewrite map_map.
  rewrite nth_map_seq by lia.
  replace (0 + Z.of_nat (Z.to_nat j)) with j by lia. reflexivity.
Qed.

Lemma inject_Z_sub (a b : Z) : inject_Z (a - b) = (inject_Z a - inject_Z b)%Q.
Proof. unfold Z.sub. now rewrite inject_Z_plus, inject_Z_opp. Qed.

Lemma inject_Z_pos (k : Z) : 1 <= k -> ~ inject_Z k == 0.
Proof.
  intros H E. change 0%Q with (inject_Z 0) in E.
  apply (proj1 (inject_Z_injective _ _)) in E. lia.
Qed.

(** A uniform step [h] divides out of every stencil term. *)
Lemma stencil_sum_uniform (h : Q) (y : list Q) (r i : Z) :
  ~ h == 0 -> 0 <= i - r -> i + r < len y ->
  (stencil_sum (expand (Scalar h) (length y)) y r i
   == uniform_sum y r i / h)%Q.
Proof.
  intros Hh Hlo Hhi. unfold stencil_sum, uniform_sum.
  rewrite (Qsum_map_ext _
             (fun k => (1 / h) * (qat (coeffs r) (k - 1)
                                  * (qat y (i + k) - qat y (i - k))))%Q).
  - rewrite Qsum_map_scale. now field.
  - intros k Hk. apply in_arange in Hk.
    rewrite !qat_expand_scalar by (fold (len y); lia).
    rewrite inject_Z_plus, inject_Z_sub.
    pose proof (inject_Z_pos k ltac:(lia)) as Hk0.
    field. split; [assumption|].
    intros E. apply Hk0.
    setoid_replace (inject_Z k) with
      ((h * (inject_Z i + inject_Z k) - h * (inject_Z i - inject_Z k))
       / (2 * h))%Q by (now field).
    rewrite E. now field.
Qed.

(** X5 (uniform grid).  With a scalar step [h], every entry [i] other than
    the two ends is the sum over [k = 1..r] of [c[k]*(y[i+k] - y[i-k])]
    divided by [h], where [r] is the order in effect at [i] and [c] the
    coefficients of that order. *)
Theorem holo_diff_uniform (h : Q) (y : list Q) (M i : Z) :
  ~ h == 0 -> 1 <= M -> 2 * M <= len y -> 1 <= i <= len y - 2 ->
  exists df d,
    holo_diff (Scalar h) y M = Ok df
    /\ nth_error df (Z.to_nat i) = Some d
    /\ (d == uniform_sum y (order_at (len y) M i) i / h)%Q.
Proof.
  intros Hh HM Hn Hi.
  destruct (holo_diff_entry (Scalar h) y M HM I Hn) as (df & E & _ & H).
  exists df. eexists. split; [exact E|].
  split; [apply H; lia|]. unfold entry.
  destruct (Z.eqb_spec i 0); [lia|].
  destruct (Z.eqb_spec i (len y - 1)); [lia|].
  rewrite stencil_at_sum.
  apply stencil_sum_uniform; [assumption | |]; unfold order_at; lia.
Qed.

Lemma holo_diff_uniform_witness :
  exists df d,
    holo_diff (Scalar (1 # 2)) [3; 1; 4; 1; 5; 9; 2]%Q 2 = Ok df
    /\ nth_error df 3 = Some d
    /\ (d == uniform_sum [3; 1; 4; 1; 5; 9; 2]%Q 2 3 / (1 # 2))%Q.
Proof.
  apply (holo_diff_uniform (1 # 2) [3; 1; 4; 1; 5; 9; 2]%Q 2 3).
  - vm_compute. discriminate.
  - lia.
  - vm_compute. discriminate.
  - vm_compute. split; discriminate.
Defined.

(** X6 (quadratic data on a uniform grid).  With a scalar step [h] and
    samples of [a*x^2 + b*x + c], every entry other than the two ends is the
    exact derivative [2*a*x + b] at its abscissa [x = h*i]; the two ends are
    the two-point slopes, which are not. *)
Theorem holo_diff_quadratic (h a b c : Q) (y : list Q) (M : Z) :
  ~ h == 0 -> 1 <= M -> 2 * M <= len y ->
  quadratic a b c (expand (Scalar h) (length y)) y ->
  exists df,
    holo_diff (Scalar h) y M = Ok df
    /\ (forall i, 1 <= i <= len y - 2 ->
          exists d, nth_error df (Z.to_nat i) = Some d
                    /\ (d == 2 * a * (h * inject_Z i) + b)%Q)
    /\ exists d0, nth_error df 0 = Some d0 /\ (d0 == a * h + b)%Q.
Proof.
  intros Hh HM Hn Hq.
  assert (Hy : forall j, 0 <= j < len y ->
             (qat y j == a * (h * inject_Z j * (h * inject_Z j))
                         + b * (h * inject_Z j) + c)%Q).
  { intros j Hj. unfold quadratic in Hq.
    assert (Hj' : (Z.to_nat j < length y)%nat) by (unfold len in *; lia).
    specialize (Hq _ Hj'). fold (qat y j) in Hq.
    fold (qat (expand (Scalar h) (length y)) j) in Hq.
    rewrite qat_expand_scalar in Hq by (fold (len y); lia). exact Hq. }
  destruct (holo_diff_entry (Scalar h) y M HM I Hn) as (df & E & _ & H).
  exists df. split; [exact E|]. split.
  - intros i Hi. eexists. split; [apply H; lia|]. unfold entry.
    destruct (Z.eqb_spec i 0); [lia|].
    destruct (Z.eqb_spec i (len y - 1)); [lia|].
    set (r := order_at (len y) M i).
    assert (Hr : 1 <= r /\ 0 <= i - r /\ i + r < len y)
      by (unfold r, order_at; lia).
    rewrite stencil_at_sum, stencil_sum_uniform by (auto; lia).
    unfold uniform_sum.
    rewrite (Qsum_map_ext _
               (fun k => (2 * h * (2 * a * (h * inject_Z i) + b))
                         * (inject_Z k * qat (coeffs r) (k - 1)))%Q).
    + rewrite Qsum_map_scale. fold (weighted_sum r).
      rewrite weighted_sum_half by lia. now field.
    + intros k Hk. apply in_arange in Hk.
      rewrite !Hy by lia. rewrite inject_Z_plus, inject_Z_sub. ring.
  - eexists. split; [change O with (Z.to_nat 0); apply H; lia|].
    unfold entry, edge_lo. cbn [Z.eqb].
    rewrite !qat_expand_scalar by (fold (len y); lia). rewrite !Hy by lia.
    change (inject_Z 1) with 1%Q. change (inject_Z 0) with 0%Q. now field.
Qed.

Lemma holo_diff_quadratic_witness :
  exists df,
    holo_diff (Scalar 1) [0; 1; 4; 9; 16; 25]%Q 2 = Ok df
    /\ exists d, nth_error df 4 = Some d /\ (d == 2 * 1 * (1 * inject_Z 4) + 0)%Q.
Proof.
  destruct (holo_diff_quadratic 1 1 0 0 [0; 1; 4; 9; 16; 25]%Q 2)
    as (df & E & H & _).
  - vm_compute. discriminate.
  - lia.
  - vm_compute. discriminate.
  - intros j Hj. simpl in Hj.
    do 6 (destruct j as [|j]; [vm_compute; reflexivity|]). lia.
  - exists df. split; [exact E|]. apply (H 4). vm_compute.
    split; discriminate.
Defined.

(** ** Linearity in the ordinates, rescaling of the abscissae *)

Lemma Qsum_map_lin {A} (alpha beta : Q) (f g : A -> Q) (l : list A) :
  (Qsum (map (fun a => alpha * f a + beta * g a) l)
   == alpha * Qsum (map f l) + beta * Qsum (map g l))%Q.
Proof.
  induction l as [|a l IH]; simpl.
  - ring.
  - rewrite IH. ring.
Qed.

Lemma entry_linear (alpha beta : Q) (x y z w : list Q) (M i : Z) :
  1 <= M -> len y = len w -> len z = len w -> 2 <= len w ->
  0 <= i < len w ->
  (forall j, 0 <= j < len w ->
             (qat w j == alpha * qat y j + beta * qat z j)%Q) ->
  (entry x w M i == alpha * entry x y M i + beta * entry x z M i)%Q.
Proof.
  intros HM Hy Hz Hn Hi Hw. unfold entry, edge_lo, edge_hi.
  rewrite Hy, Hz.
  destruct (Z.eqb_spec i 0).
  { rewrite (Hw 1), (Hw 0) by lia. unfold Qdiv. ring. }
  destruct (Z.eqb_spec i (len w - 1)).
  { rewrite (Hw (len w - 1)), (Hw (len w - 2)) by lia. unfold Qdiv. ring. }
  rewrite !stencil_at_sum. unfold stencil_sum.
  rewrite <- Qsum_map_lin. apply Qsum_map_ext.
  intros k Hk. apply in_arange in Hk. unfold order_at in Hk.
  rewrite (Hw (i + k)), (Hw (i - k)) by lia. unfold Qdiv. ring.
Qed.

(** Discharges the side conditions of [field]: a factor that is assumed
    not to be zero, or a difference of two abscissae that [D] tells apart. *)
Ltac nonzero D :=
  repeat split;
  first [assumption | let E := fresh "E" in intros E; apply D; lra].

Lemma entry_rescale (s t : Q) (x x' y : list Q) (M i : Z) :
  ~ s == 0 -> 1 <= M -> len x = len y -> len x' = len y -> 2 <= len y ->
  0 <= i < len y ->
  (forall j k, 0 <= j < k -> k < len y -> ~ qat x j == qat x k) ->
  (forall j, 0 <= j < len y -> (qat x' j == s * qat x j + t)%Q) ->
  (entry x' y M i == entry x y M i / s)%Q.
Proof.
  intros Hs HM Hx Hx' Hn Hi Hd Hr. unfold entry, edge_lo, edge_hi.
  rewrite Hx, Hx'.
  destruct (Z.eqb_spec i 0).
  { rewrite (Hr 1), (Hr 0) by lia.
    pose proof (Hd 0 1 ltac:(lia) ltac:(lia)) as D.
    setoid_replace (s * qat x 1 + t - (s * qat x 0 + t))%Q
      with (s * (qat x 1 - qat x 0))%Q by ring.
    field. nonzero D. }
  destruct (Z.eqb_spec i (len y - 1)).
  { rewrite (Hr (len y - 1)), (Hr (len y - 2)) by lia.
    pose proof (Hd (len y - 2) (len y - 1) ltac:(lia) ltac:(lia)) as D.
    setoid_replace (s * qat x (len y - 1) + t - (s * qat x (len y - 2) + t))%Q
      with (s * (qat x (len y - 1) - qat x (len y - 2)))%Q by ring.
    field. nonzero D. }
  rewrite !stencil_at_sum. unfold stencil_sum.
  rewrite (Qsum_map_ext _
             (fun k => (1 / s)
                       * (2 * inject_Z k
                          * qat (coeffs (order_at (len y) M i)) (k - 1)
                          * (qat y (i + k) - qat y (i - k))
                          / (qat x (i + k) - qat x (i - k))))%Q).
  - rewrite Qsum_map_scale. now field.
  - intros k Hk. apply in_arange in Hk. unfold order_at in Hk.
    rewrite (Hr (i + k)), (Hr (i - k)) by lia.
    pose proof (Hd (i - k) (i + k) ltac:(lia) ltac:(lia)) as D.
    setoid_replace (s * qat x (i + k) + t - (s * qat x (i - k) + t))%Q
      with (s * (qat x (i + k) - qat x (i - k)))%Q by ring.
    field. nonzero D.
Qed.

Lemma matching_length (x : abscissa) (y w : list Q) :
  length y = length w -> matching x w -> matching x y.
Proof. intros H. destruct x; simpl; congruence. Qed.

(** X7 (linearity).  The estimate is linear in the ordinates: for samples
    [w = alpha*y + beta*z] on the same abscissae, every entry of the result
    for [w] is [alpha] times the entry for [y] plus [beta] times the entry
    for [z]. *)
Theorem holo_diff_linear (x : abscissa) (y z w : list Q) (M : Z)
    (alpha beta : Q) :
  1 <= M -> matching x w -> 2 * M <= len w ->
  combination alpha beta y z w ->
  distinct (expand x (length w)) ->
  exists dy dz dw,
    holo_diff x y M = Ok dy /\ holo_diff x z M = Ok dz
    /\ holo_diff x w M = Ok dw
    /\ forall i, (i < length w)%nat ->
                 (nth i dw 0 == alpha * nth i dy 0 + beta * nth i dz 0)%Q.
Proof.
  intros HM Hm Hn (Ly & Lz & Hw) _.
  assert (Ny : len y = len w) by (unfold len; now rewrite Ly).
  assert (Nz : len z = len w) by (unfold len; now rewrite Lz).
  destruct (holo_diff_entry x y M HM) as (dy & Ey & _ & Hy);
    [now apply (matching_length x y w) | lia |].
  destruct (holo_diff_entry x z M HM) as (dz & Ez & _ & Hz);
    [now apply (matching_length x z w) | lia |].
  destruct (holo_diff_entry x w M HM Hm Hn) as (dw & Ew & _ & Hdw).
  rewrite Ly in Hy. rewrite Lz in Hz.
  exists dy, dz, dw. repeat split; try assumption.
  intros i Hi.
  assert (Hi' : 0 <= Z.of_nat i < len w) by (unfold len; lia).
  pose proof (nth_error_nth dy _ 0%Q (Hy (Z.of_nat i) ltac:(lia))) as Ay.
  pose proof (nth_error_nth dz _ 0%Q (Hz (Z.of_nat i) ltac:(lia))) as Az.
  pose proof (nth_error_nth dw _ 0%Q (Hdw (Z.of_nat i) Hi')) as Aw.
  rewrite Nat2Z.id in Ay, Az, Aw. rewrite Ay, Az, Aw.
  apply entry_linear; try assumption; try lia.
  intros j Hj. unfold qat. apply Hw. unfold len in *. lia.
Qed.

Lemma holo_diff_linear_witness :
  exists dy dz dw,
    holo_diff (Scalar 1) [1; 2; 4; 8; 16]%Q 2 = Ok dy
    /\ holo_diff (Scalar 1) [0; 1; 0; 1; 0]%Q 2 = Ok dz
    /\ holo_diff (Scalar 1) [2; 7; 8; 19; 32]%Q 2 = Ok dw
    /\ forall i, (i < 5)%nat ->
                 (nth i dw 0 == 2 * nth i dy 0 + 3 * nth i dz 0)%Q.
Proof.
  apply (holo_diff_linear (Scalar 1) [1; 2; 4; 8; 16]%Q [0; 1; 0; 1; 0]%Q
           [2; 7; 8; 19; 32]%Q 2 2 3).
  - lia.
  - exact I.
  - vm_compute. discriminate.
  - split; [reflexivity|]. split; [reflexivity|].
    intros j Hj. simpl in Hj.
    do 5 (destruct j as [|j]; [vm_compute; reflexivity|]). lia.
  - intros i j [Hij Hj]. simpl in Hj.
    do 5 (destruct j as [|j];
          [do 5 (destruct i as [|i]; [try lia; vm_compute; discriminate|]);
           lia|]).
    lia.
Defined.

(** X8 (change of units of the abscissae).  Only differences of abscissae
    are read: replacing distinct abscissae [x] by [s*x + t], [s] not zero,
    divides every entry of the result by [s]; a shift alone changes
    nothing. *)
Theorem holo_diff_rescale (x x' y : list Q) (M : Z) (s t : Q) :
  ~ s == 0 -> 1 <= M -> length x = length y -> 2 * M <= len y ->
  rescaled s t x x' -> distinct x ->
  exists df df',
    holo_diff (Array x) y M = Ok df /\ holo_diff (Array x') y M = Ok df'
    /\ forall i, (i < length y)%nat -> (nth i df' 0 == nth i df 0 / s)%Q.
Proof.
  intros Hs HM Hlen Hn (Lx' & Hr) Hd.
  assert (Hlen' : length x' = length y) by congruence.
  destruct (holo_diff_entry (Array x) y M HM Hlen Hn) as (df & E & _ & H).
  destruct (holo_diff_entry (Array x') y M HM Hlen' Hn) as (df' & E' & _ & H').
  cbn [expand] in H, H'.
  exists df, df'. repeat split; try assumption.
  intros i Hi.
  assert (Hi' : 0 <= Z.of_nat i < len y) by (unfold len; lia).
  pose proof (nth_error_nth df _ 0%Q (H (Z.of_nat i) Hi')) as A.
  pose proof (nth_error_nth df' _ 0%Q (H' (Z.of_nat i) Hi')) as A'.
  rewrite Nat2Z.id in A, A'. rewrite A, A'.
  apply (entry_rescale s t); try assumption; try lia;
    try (unfold len; congruence).
  - intros j k Hjk Hk. unfold qat. apply Hd. unfold len in *. lia.
  - intros j Hj. unfold qat. apply Hr. unfold len in *. lia.
Qed.

Lemma holo_diff_rescale_witness :
  exists df df',
    holo_diff (Array [0; 1; 3; 4; 7]%Q) [1; 2; 0; 5; 3]%Q 2 = Ok df
    /\ holo_diff (Array [5; 7; 11; 13; 19]%Q) [1; 2; 0; 5; 3]%Q 2 = Ok df'
    /\ forall i, (i < 5)%nat -> (nth i df' 0 == nth i df 0 / 2)%Q.
Proof.
  apply (holo_diff_rescale [0; 1; 3; 4; 7]%Q [5; 7; 11; 13; 19]%Q
           [1; 2; 0; 5; 3]%Q 2 2 5).
  - vm_compute. discriminate.
  - lia.
  - reflexivity.
  - vm_compute. discriminate.
  - split; [reflexivity|]. intros j Hj. simpl in Hj.
    do 5 (destruct j as [|j]; [vm_compute; reflexivity|]). lia.
  - intros i j [Hij Hj]. simpl in Hj.
    do 5 (destruct j as [|j];
          [do 5 (destruct i as [|i]; [try lia; vm_compute; discriminate|]);
           lia|]).
    lia.
Defined.

(** ** The sign of the coefficients *)

Lemma binom_pos (n k : nat) : (k <= n)%nat -> (0 < binom n k)%nat.
Proof.
  intros H. pose proof (binom_fact n k H) as E.
  pose proof (fact_neq_0 n). destruct (binom n k); [simpl in E; lia | lia].
Qed.

Lemma binom_step (n r : nat) :
  (binom n (S r) * S r = binom n r * (n - r))%nat.
Proof.
  destruct (Nat.lt_ge_cases r n) as [H|H].
  - pose proof (binom_fact n (S r) ltac:(lia)) as E1.
    pose proof (binom_fact n r ltac:(lia)) as E2.
    replace (n - r)%nat with (S (n - S r)) in * by lia.
    change (fact (S r)) with (S r * fact r)%nat in E1.
    change (fact (S (n - S r))) with (S (n - S r) * fact (n - S r))%nat in E2.
    pose proof (fact_neq_0 r). pose proof (fact_neq_0 (n - S r)).
    apply (Nat.mul_cancel_r _ _ (fact r * fact (n - S r))); [nia | nia].
  - rewrite binom_gt by lia. replace (n - r)%nat with O by lia. lia.
Qed.

(** Pascal's rows rise strictly up to the middle. *)
Lemma binom_rise (n r : nat) :
  (2 * r + 1 < n)%nat -> (binom n r < binom n (S r))%nat.
Proof.
  intros H. pose proof (binom_step n r) as E.
  pose proof (binom_pos n r ltac:(lia)). nia.
Qed.

Lemma comb_rise (m : nat) (j : Z) :
  0 <= j <= Z.of_nat m ->
  (comb (2 * Z.of_nat m) (j - 2) < comb (2 * Z.of_nat m) j)%Q.
Proof.
  intros Hj. replace (2 * Z.of_nat m) with (Z.of_nat (2 * m)) by lia.
  replace j with (Z.of_nat (Z.to_nat j)) at 2 by lia. rewrite comb_binom.
  destruct (Z_lt_le_dec j 2) as [H|H].
  - rewrite comb_neg by lia. change 0%Q with (inject_Z 0).
    rewrite <- Zlt_Qlt.
    pose proof (binom_pos (2 * m) (Z.to_nat j) ltac:(lia)). lia.
  - replace (j - 2) with (Z.of_nat (Z.to_nat j - 2)) by lia.
    rewrite comb_binom, <- Zlt_Qlt.
    pose proof (binom_rise (2 * m) (Z.to_nat j - 2) ltac:(lia)).
    pose proof (binom_rise (2 * m) (S (Z.to_nat j - 2)) ltac:(lia)).
    replace (S (S (Z.to_nat j - 2))) with (Z.to_nat j) in * by lia. lia.
Qed.

(** X9 (sign of the coefficients).  For every order [M >= 1] all [M]
    coefficients are strictly positive, and the last one, the weight of the
    widest difference, is [1/2^(2M-1)]. *)
Theorem coeffs_positive (M : Z) :
  1 <= M ->
  Forall (fun c => 0 < c)%Q (coeffs M)
  /\ (qat (coeffs M) (M - 1) == 1 / 2 ^ (2 * M - 1))%Q.
Proof.
  intros HM.
  assert (exists m, M = Z.of_nat (S m)) as [m EM]
    by (exists (Z.to_nat (M - 1)); lia).
  assert (Hpow : (0 < 1 / 2 ^ (2 * (M - 1) + 1))%Q).
  { unfold Qdiv. rewrite Qmult_1_l. apply Qinv_lt_0_compat, Qpower_0_lt.
    reflexivity. }
  split.
  - apply Forall_nth. intros i d Hi. rewrite length_coeffs in Hi.
    rewrite (nth_indep _ d 0%Q) by (rewrite length_coeffs; lia).
    replace i with (Z.to_nat (Z.of_nat i + 1 - 1)) by lia.
    fold (qat (coeffs M) (Z.of_nat i + 1 - 1)). rewrite coeffs_at by lia.
    apply Qmult_lt_0_compat; [assumption|].
    replace (M - 1) with (Z.of_nat m) by lia.
    pose proof (comb_rise m (Z.of_nat m - (Z.of_nat i + 1) + 1) ltac:(lia))
      as R.
    replace (Z.of_nat m - (Z.of_nat i + 1) + 1 - 2)
      with (Z.of_nat m - (Z.of_nat i + 1) - 1) in R by lia.
    lra.
  - rewrite coeffs_at by lia.
    replace (M - 1 - M + 1) with 0 by lia.
    rewrite (comb_neg _ (M - 1 - M - 1)) by lia.
    replace (2 * (M - 1)) with (Z.of_nat (2 * m)) by lia.
    change 0 with (Z.of_nat 0) at 1. rewrite comb_binom, binom_0_r.
    replace (Z.of_nat (2 * m) + 1) with (2 * M - 1) by lia.
    change (inject_Z (Z.of_nat 1)) with 1%Q. ring.
Qed.

Lemma coeffs_positive_witness :
  1 <= 5
  /\ Forall (fun c => 0 < c)%Q (coeffs 5)
  /\ (qat (coeffs 5) (5 - 1) == 1 / 2 ^ (2 * 5 - 1))%Q.
Proof.
  assert (H : 1 <= 5) by lia.
  split; [exact H | exact (coeffs_positive 5 H)].
Defined.

(** ** Locality and reversal *)

(** X10 (locality).  An entry [i] other than the two ends depends on the
    samples at [i - r .. i + r] only, [r] being the order in effect at [i]:
    two calls on data of the same length that agree there agree at [i]. *)
Theorem holo_diff_local (x x' y y' : list Q) (M i : Z) :
  1 <= M -> length x = length y -> length x' = length y' ->
  length y' = length y -> 2 * M <= len y -> 1 <= i <= len y - 2 ->
  (forall j, i - order_at (len y) M i <= j <= i + order_at (len y) M i ->
             qat x' j = qat x j /\ qat y' j = qat y j) ->
  exists df df',
    holo_diff (Array x) y M = Ok df /\ holo_diff (Array x') y' M = Ok df'
    /\ nth_error df' (Z.to_nat i) = nth_error df (Z.to_nat i).
Proof.
  intros HM Hlen Hlen' Hyy Hn Hi Hagree.
  assert (Ny : len y' = len y) by (unfold len; now rewrite Hyy).
  destruct (holo_diff_entry (Array x) y M HM Hlen Hn) as (df & E & _ & H).
  destruct (holo_diff_entry (Array x') y' M HM Hlen') as (df' & E' & _ & H');
    [lia|].
  cbn [expand] in H, H'. exists df, df'. repeat split; try assumption.
  rewrite H, H' by lia. f_equal. unfold entry. rewrite Ny.
  destruct (Z.eqb_spec i 0); [lia|].
  destruct (Z.eqb_spec i (len y - 1)); [lia|].
  apply stencil_at_ext. intros k Hk.
  destruct (Hagree (i + k)) as [-> ->]; [lia|].
  destruct (Hagree (i - k)) as [-> ->]; [lia|].
  auto.
Qed.

Lemma holo_diff_local_witness :
  exists df df',
    holo_diff (Array [0; 1; 2; 3; 4; 5; 6]%Q) [5; 1; 4; 1; 5; 9; 2]%Q 2 = Ok df
    /\ holo_diff (Array [0; 1; 2; 3; 4; 5; 8]%Q) [7; 1; 4; 1; 5; 9; 3]%Q 2
       = Ok df'
    /\ nth_error df' 3 = nth_error df 3.
Proof.
  apply (holo_diff_local [0; 1; 2; 3; 4; 5; 6]%Q [0; 1; 2; 3; 4; 5; 8]%Q
           [5; 1; 4; 1; 5; 9; 2]%Q [7; 1; 4; 1; 5; 9; 3]%Q 2 3).
  - lia.
  - reflexivity.
  - reflexivity.
  - reflexivity.
  - vm_compute. discriminate.
  - vm_compute. split; discriminate.
  - intros j Hj. change (order_at _ 2 3) with 2 in Hj.
    assert (j = 1 \/ j = 2 \/ j = 3 \/ j = 4 \/ j = 5) as [->|[->|[->|[->| ->]]]]
      by lia; split; reflexivity.
Defined.

Lemma qat_rev (l : list Q) (j : Z) :
  0 <= j < len l -> qat (rev l) j = qat l (len l - 1 - j).
Proof.
  intros H. unfold qat, len in *. rewrite rev_nth by lia. f_equal. lia.
Qed.

Lemma entry_rev (x y : list Q) (M i : Z) :
  1 <= M -> len x = len y -> 2 <= len y -> 0 <= i < len y ->
  (forall j k, 0 <= j < k -> k < len y -> ~ qat x j == qat x k) ->
  (entry (rev x) (rev y) M i == entry x y M (len y - 1 - i))%Q.
Proof.
  intros HM Hx Hn Hi Hd.
  assert (Rx : len (rev x) = len y) by (unfold len in *; now rewrite length_rev).
  assert (Ry : len (rev y) = len y) by (unfold len in *; now rewrite length_rev).
  unfold entry, edge_lo, edge_hi. rewrite Rx, Ry, Hx.
  destruct (Z.eqb_spec i 0) as [->|H0].
  { destruct (Z.eqb_spec (len y - 1 - 0) 0); [lia|].
    destruct (Z.eqb_spec (len y - 1 - 0) (len y - 1)); [|lia].
    rewrite !qat_rev by lia. rewrite Hx.
    replace (len y - 1 - 1) with (len y - 2) by lia.
    replace (len y - 1 - 0) with (len y - 1) by lia.
    pose proof (Hd (len y - 2) (len y - 1) ltac:(lia) ltac:(lia)) as D.
    field. split; intros E; apply D; lra. }
  destruct (Z.eqb_spec i (len y - 1)) as [->|H1].
  { replace (len y - 1 - (len y - 1)) with 0 by lia. cbn [Z.eqb].
    rewrite !qat_rev by lia. rewrite Hx.
    replace (len y - 1 - (len y - 1)) with 0 by lia.
    replace (len y - 1 - (len y - 2)) with 1 by lia.
    pose proof (Hd 0 1 ltac:(lia) ltac:(lia)) as D.
    field. split; intros E; apply D; lra. }
  destruct (Z.eqb_spec (len y - 1 - i) 0); [lia|].
  destruct (Z.eqb_spec (len y - 1 - i) (len y - 1)); [lia|].
  replace (order_at (len y) M (len y - 1 - i)) with (order_at (len y) M i)
    by (unfold order_at; lia).
  rewrite !stencil_at_sum. unfold stencil_sum.
  apply Qsum_map_ext. intros k Hk. apply in_arange in Hk.
  unfold order_at in Hk.
  rewrite !qat_rev by lia. rewrite Hx.
  replace (len y - 1 - (i + k)) with (len y - 1 - i - k) by lia.
  replace (len y - 1 - (i - k)) with (len y - 1 - i + k) by lia.
  pose proof (Hd (len y - 1 - i - k) (len y - 1 - i + k)
                ltac:(lia) ltac:(lia)) as D.
  field. split; intros E; apply D; lra.
Qed.

(** X11 (reversal).  The two ends are treated alike and the abscissae need
    not increase: on distinct abscissae, the call on the reversed data
    returns the reversed result. *)
Theorem holo_diff_rev (x y : list Q) (M : Z) :
  1 <= M -> length x = length y -> 2 * M <= len y -> distinct x ->
  exists df df',
    holo_diff (Array x) y M = Ok df
    /\ holo_diff (Array (rev x)) (rev y) M = Ok df'
    /\ forall i, (i < length y)%nat ->
                 (nth i df' 0 == nth (length y - 1 - i) df 0)%Q.
Proof.
  intros HM Hlen Hn Hd.
  assert (Hx : len x = len y) by (unfold len; now rewrite Hlen).
  destruct (holo_diff_entry (Array x) y M HM Hlen Hn) as (df & E & _ & H).
  destruct (holo_diff_entry (Array (rev x)) (rev y) M HM)
    as (df' & E' & _ & H').
  { simpl. now rewrite !length_rev. }
  { unfold len in *. now rewrite length_rev. }
  cbn [expand] in H, H'. unfold len in H'. rewrite length_rev in H'.
  fold (len y) in H'.
  exists df, df'. repeat split; try assumption.
  intros i Hi.
  assert (Hi' : 0 <= Z.of_nat i < len y) by (unfold len; lia).
  assert (Hj' : 0 <= len y - 1 - Z.of_nat i < len y) by (unfold len; lia).
  pose proof (nth_error_nth df' _ 0%Q (H' _ Hi')) as A'.
  pose proof (nth_error_nth df _ 0%Q (H _ Hj')) as A.
  rewrite Nat2Z.id in A'.
  replace (Z.to_nat (len y - 1 - Z.of_nat i)) with (length y - 1 - i)%nat
    in A by (unfold len; lia).
  rewrite A, A'. apply entry_rev; try assumption; try lia.
  intros j k Hjk Hk. unfold qat. apply Hd. unfold len in *. lia.
Qed.

Lemma holo_diff_rev_witness :
  exists df df',
    holo_diff (Array [0; 1; 3; 4; 7]%Q) [1; 2; 0; 5; 3]%Q 2 = Ok df
    /\ holo_diff (Array (rev [0; 1; 3; 4; 7]%Q)) (rev [1; 2; 0; 5; 3]%Q) 2
       = Ok df'
    /\ forall i, (i < 5)%nat -> (nth i df' 0 == nth (5 - 1 - i) df 0)%Q.
Proof.
  apply (holo_diff_rev [0; 1; 3; 4; 7]%Q [1; 2; 0; 5; 3]%Q 2).
  - lia.
  - reflexivity.
  - vm_compute. discriminate.
  - intros i j [Hij Hj]. simpl in Hj.
    do 5 (destruct j as [|j];
          [do 5 (destruct i as [|i]; [try lia; vm_compute; discriminate|]);
           lia|]).
    lia.
Defined.
